(** * PwaService (src/app/services/pwa.service.ts)

    A shallow embedding of the playlist facade of the web build: the
    favourites aggregation, the normaliser [createPlaylistObject] and the
    command handler [sendIpcEvent] with its storage, transport and
    messaging collaborators.

    Conventions.
    - A JavaScript object is a finite map from property names to values;
      the spread [{...a, ...b, k: v}] is a right-biased union followed by
      an insertion.
    - Numbers are the integers the program computes with (lengths, array
      indices, millisecond time stamps); [NaN] is [None] where it can
      arise.
    - A string is the sequence of its code units, which are taken below
      256; strings are ordered code unit by code unit, a proper prefix
      first, which is the order of the keys of an object store.
    - A thrown [TypeError] is [None] in the pure functions and a [Fault]
      in the handler.
    - Subscriptions are run to completion one after the other;
      [console.log] is not modelled. *)

From stdpp Require Import gmap strings list fin_maps sorting pretty.

Set Warnings "-register-all".
Open Scope string_scope.
Open Scope list_scope.
Open Scope nat_scope.

(** ** JavaScript values *)

Module JS.

Inductive value :=
| VUndefined
| VNull
| VBool (b : bool)
| VNum (n : Z)
| VStr (s : string)
| VArr (l : list value)
| VObj (o : gmap string value).

Abbreviation obj := (gmap string value).

(** [o.k] on an object: a missing property reads as [undefined]. *)
Definition field (k : string) (o : obj) : value := default VUndefined (o !! k).

(** [v.k] for a named (non-index) property; [None] is the [TypeError]
    raised on [undefined] and [null]. *)
Definition prop (k : string) (v : value) : option value :=
  match v with
  | VUndefined | VNull => None
  | VObj o => Some (field k o)
  | VArr l => Some (if decide (k = "length") then VNum (Z.of_nat (length l)) else VUndefined)
  | VStr s => Some (if decide (k = "length") then VNum (Z.of_nat (String.length s)) else VUndefined)
  | VBool _ | VNum _ => Some VUndefined
  end.

(** [v?.k] *)
Definition optional_prop (k : string) (v : value) : value :=
  match v with
  | VUndefined | VNull => VUndefined
  | _ => default VUndefined (prop k v)
  end.

(** The array behind a value on which an array method is called. *)
Definition as_array (v : value) : option (list value) :=
  match v with VArr l => Some l | _ => None end.

(** [ToNumber] on the operands the program compares; [None] is [NaN]. *)
Definition to_number (v : value) : option Z :=
  match v with
  | VNum n => Some n
  | VBool b => Some (if b then 1 else 0)%Z
  | VNull => Some 0%Z
  | _ => None
  end.

(** [v > 0] *)
Definition gt_zero (v : value) : bool :=
  match to_number v with Some n => bool_decide (0 < n)%Z | None => false end.

(** [a - b] *)
Definition sub (a b : value) : option Z :=
  x ← to_number a; y ← to_number b; Some (x - y)%Z.

(** SameValueZero on primitives; two arrays or objects are the same only
    when they are the same reference, which stored records never are. *)
Definition same_value_zero (a b : value) : bool :=
  match a, b with
  | VUndefined, VUndefined | VNull, VNull => true
  | VBool x, VBool y => bool_decide (x = y)
  | VNum x, VNum y => bool_decide (x = y)
  | VStr x, VStr y => bool_decide (x = y)
  | _, _ => false
  end.

(** [l.includes(x)] *)
Definition includes (l : list value) (x : value) : bool :=
  existsb (same_value_zero x) l.

(** [ToString], as used by template literals, [join] and the search of
    a string. An object is taken to have no [toString] property of its
    own. *)
Fixpoint to_string (v : value) : string :=
  match v with
  | VUndefined => "undefined"
  | VNull => "null"
  | VBool true => "true"
  | VBool false => "false"
  | VNum n => pretty n
  | VStr s => s
  | VArr l =>
      (fix go (l : list value) : string :=
         match l with
         | [] => ""
         | x :: l' =>
             let sx := match x with
                       | VUndefined | VNull => ""
                       | _ => to_string x
                       end in
             match l' with [] => sx | _ => sx +:+ "," +:+ go l' end
         end) l
  | VObj _ => "[object Object]"
  end.

(** [v.includes(x)] on any value: the search of an array for [x], the
    search of a string for the text of [x]; every other value has no
    such method, and the call raises a [TypeError]. *)
Definition value_includes (v x : value) : option bool :=
  match v with
  | VArr l => Some (includes l x)
  | VStr s => Some (bool_decide (is_Some (String.index 0 (to_string x) s)))
  | _ => None
  end.

(** The line feed character and the one-character string of it. *)
Definition LF : Ascii.ascii := Ascii.ascii_of_nat 10.
Definition newline : string := String LF "".

(** [l.join(sep)] on strings. *)
Fixpoint join (sep : string) (l : list string) : string :=
  match l with
  | [] => ""
  | [x] => x
  | x :: l' => x +:+ sep +:+ join sep l'
  end.

(** [l.join(sep)] on an array of values. *)
Definition array_join (sep : string) (l : list value) : string :=
  join sep ((λ x, match x with
                  | VUndefined | VNull => ""
                  | _ => to_string x
                  end) <$> l).

(** [s.split(c)] for a one-character separator. *)
Fixpoint split (c : Ascii.ascii) (s : string) : list string :=
  match s with
  | EmptyString => [""]
  | String a s' =>
      if decide (a = c) then "" :: split c s'
      else match split c s' with
           | h :: t => String a h :: t
           | [] => [String a ""]
           end
  end.

(** The own enumerable properties copied by [...v]. *)
Definition spread (v : value) : obj :=
  match v with
  | VObj o => o
  | VArr l => list_to_map (imap (λ i x, (pretty i, x)) l)
  | VStr s =>
      list_to_map (imap (λ i a, (pretty i, VStr (String a "")))
                        (String.list_ascii_of_string s))
  | _ => ∅
  end.

(** [l.sort(cmp)]. A comparator result that is [NaN] counts as [+0], as
    ECMAScript's SortCompare prescribes. For a consistent comparator the
    language fixes the result: the elements in ascending order, equal
    ones in the order they had. For an inconsistent one, as [NaN]
    results make it, the order is left to the engine; the definition
    then gives the order of a stable insertion, which leaves an array
    as it is when all its neighbours compare as equal. *)
Section sort.
Context {A : Type} (cmp : A → A → option Z).

Definition after (x y : A) : bool :=
  match cmp x y with Some v => bool_decide (0 < v)%Z | None => false end.

Fixpoint insert_sorted (x : A) (l : list A) : list A :=
  match l with
  | [] => [x]
  | y :: l' => if after x y then y :: insert_sorted x l' else x :: l
  end.

Definition sort (l : list A) : list A := foldr insert_sorted [] l.

End sort.

(** [l.forEach(body)] threading the state the body mutates. *)
Fixpoint forEach {A S : Type} (l : list A) (body : S → A → option S)
    (s : S) : option S :=
  match l with
  | [] => Some s
  | x :: l' => s' ← body s x; forEach l' body s'
  end.

End JS.

Import JS.

(** ** Collaborators of the service *)

(** The message names imported from shared/ipc-commands. *)
Inductive ipc_command :=
| ERROR
| PLAYLIST_GET_ALL
| PLAYLIST_GET_ALL_RESPONSE
| PLAYLIST_GET_BY_ID
| PLAYLIST_PARSE
| PLAYLIST_PARSE_BY_URL
| PLAYLIST_PARSE_RESPONSE
| PLAYLIST_REMOVE_BY_ID
| PLAYLIST_REMOVE_BY_ID_RESPONSE
| PLAYLIST_SAVE_DETAILS
| PLAYLIST_UPDATE
| PLAYLIST_UPDATE_FAVORITES
| PLAYLIST_UPDATE_POSITIONS.

(** The second parameter of [createPlaylistObject]'s origin. *)
Inductive upload_type := URL | FILE.

(** The result type of the playlist parser (typings.d.ts). *)
Record ParsedPlaylist := { header : value; items : list value }.

(** [{...p}] for a parsed playlist. *)
Definition spread_parsed (p : ParsedPlaylist) : obj :=
  {[ "header" := header p; "items" := VArr (items p) ]}.

(** A message handed to [window.postMessage]: its [type] and its other
    properties. *)
Record message := Message { msg_type : ipc_command; msg_body : obj }.

(** What an [HttpClient.get] observable delivers. *)
Inductive http_result := HttpOk (response : value) | HttpError (error : value).

Inductive error := TypeError | HttpErrorResponse (e : value) | StorageError.

(** The state the service acts on: the object store [DbStores.Playlists]
    by primary key, the messages posted to the window, the URLs requested,
    and how often [guid()] and the clock have been read. *)
Record world := World {
  db : gmap string obj;
  posted : list message;
  requests : list string;
  guids : nat;
  ticks : nat
}.

Inductive outcome (A : Type) :=
| Ok (a : A) (w : world)
| Fault (e : error) (w : world).
Arguments Ok {A} a w.
Arguments Fault {A} e w.

Definition M (A : Type) : Type := world → outcome A.

Definition ret {A} (a : A) : M A := λ w, Ok a w.

Definition bind {A B} (m : M A) (k : A → M B) : M B :=
  λ w, match m w with Ok a w' => k a w' | Fault e w' => Fault e w' end.

Definition throw {A} (e : error) : M A := λ w, Fault e w.

#[global] Instance M_ret : MRet M := @ret.
#[global] Instance M_bind : MBind M := λ A B k m, bind m k.

(** A pure computation that may raise a [TypeError]. *)
Definition liftE {A} (x : option A) : M A :=
  match x with Some a => ret a | None => throw TypeError end.

(** The order of the keys of an object store. *)
Definition key_le (a b : string) : Prop := String.leb a b = true.

#[global] Instance key_le_dec a b : Decision (key_le a b).
Proof. unfold key_le. apply _. Defined.

(** The records of a store in ascending order of their keys, as a
    cursor over the store visits them. *)
Definition by_key (d : gmap string obj) : list obj :=
  (merge_sort (λ x y : string * obj, key_le x.1 y.1) (map_to_list d)).*2.

(** Object literal pieces: properties written later win. *)
Definition extend (o later : obj) : obj := later ∪ o.

Section PwaService.

(** [guid()] of the id library: the n-th identifier it hands out. *)
Context (guid_src : nat → string).
(** The n-th reading of the system clock, in milliseconds. *)
Context (clock : nat → Z).
(** [Date.prototype.toISOString] *)
Context (toISOString : Z → string).
(** [parse] of the playlist parser library. *)
Context (parse : string → ParsedPlaylist).
(** The transport: what a GET of a URL delivers. *)
Context (http : string → http_result).
(** [AppConfig]-dependent proxy prefix. *)
Context (corsProxyUrl : string).
(** Key path of the object store (indexed-db.config). *)
Context (keyPath : string).
(** [PlaylistUpdateState.UPDATED] (shared/playlist.interface). *)
Context (UPDATED : value).

Definition guid : M string :=
  λ w, Ok (guid_src (guids w))
          (World (db w) (posted w) (requests w) (S (guids w)) (ticks w)).

(** [Date.now()] *)
Definition Date_now : M Z :=
  λ w, Ok (clock (ticks w))
          (World (db w) (posted w) (requests w) (guids w) (S (ticks w))).

(** [new Date().toISOString()] *)
Definition new_Date_toISOString : M string :=
  t ← Date_now; mret (toISOString t).

Definition postMessage (t : ipc_command) (body : obj) : M unit :=
  λ w, Ok () (World (db w) (posted w ++ [Message t body]) (requests w)
                    (guids w) (ticks w)).

(** [this.http.get(url)] *)
Definition http_get (url : string) : M http_result :=
  λ w, Ok (http url)
          (World (db w) (posted w) (requests w ++ [url]) (guids w) (ticks w)).

(** *** The storage collaborator (NgxIndexedDBService)

    Keys of the store are strings, as [guid()] produces them. *)

Definition set_db (d : gmap string obj) : M unit :=
  λ w, Ok () (World d (posted w) (requests w) (guids w) (ticks w)).

Definition key_of (record : obj) : option string :=
  match field keyPath record with VStr k => Some k | _ => None end.

(** [getAll] delivers the records in ascending order of their keys. *)
Definition getAll : M (list obj) :=
  λ w, Ok (by_key (db w)) w.

Definition getByID (key : value) : M value :=
  match key with
  | VStr k => λ w, Ok (from_option VObj VUndefined (db w !! k)) w
  | VNum _ => ret VUndefined
  | _ => throw StorageError
  end.

Definition getByIndex (index : string) (key : value) : M value :=
  match key with
  | VStr k =>
      all ← getAll;
      mret (from_option VObj VUndefined
              (head (filter (λ r : obj, same_value_zero (field index r) (VStr k))
                            all)))
  | VNum _ => ret VUndefined
  | _ => throw StorageError
  end.

Definition add (record : value) : M value :=
  match record with
  | VObj o =>
      match key_of o with
      | Some k =>
          λ w, match db w !! k with
               | None => (set_db (<[k:=o]> (db w));; mret record) w
               | Some _ => Fault StorageError w
               end
      | None => throw StorageError
      end
  | _ => throw StorageError
  end.

(** [update] puts the record under its own key and delivers the
    collection. *)
Definition update (record : obj) : M (list obj) :=
  match key_of record with
  | Some k => λ w, (set_db (<[k:=record]> (db w));; getAll) w
  | None => throw StorageError
  end.

Definition delete_ (key : value) : M (list obj) :=
  match key with
  | VStr k => λ w, (set_db (delete k (db w));; getAll) w
  | VNum _ => getAll
  | _ => throw StorageError
  end.

(** ** The service *)

(** Id of the channel with favorite channels aggregated from all added
    playlists. *)
Definition GLOBAL_FAVORITES_PLAYLIST_ID : string := "GLOBAL_FAVORITES".

(** The callback of the inner [forEach] of [aggregateFavoriteChannels]:
    pushes the channel when the playlist's favorites include its id. *)
Definition pushFavorite (playlist : obj) (favorites : list value)
    (channel : value) : option (list value) :=
  id ← prop "id" channel;
  found ← value_includes (field "favorites" playlist) id;
  if (found : bool) then Some (favorites ++ [channel])
  else Some favorites.

(** The callback of the outer [forEach]. *)
Definition collectFavorites (favorites : list value) (playlist : obj)
    : option (list value) :=
  if gt_zero (optional_prop "length" (field "favorites" playlist)) then
    channels ← prop "items" (field "playlist" playlist) ≫= as_array;
    forEach channels (pushFavorite playlist) favorites
  else Some favorites.

(** Aggregates favorite channels as objects from all available
    playlists. *)
Definition aggregateFavoriteChannels (playlists : list obj)
    : option (list value) :=
  forEach playlists collectFavorites [].

(** Creates a simplified playlist object which is used for global
    favorites. *)
Definition createFavoritesPlaylist (channels : list value) : obj :=
  list_to_map [
    ("id", VStr GLOBAL_FAVORITES_PLAYLIST_ID);
    ("_id", VStr GLOBAL_FAVORITES_PLAYLIST_ID);
    ("count", VNum (Z.of_nat (length channels)));
    ("playlist", VObj {[ "items" := VArr channels ]})
  ].

(** The callback of the [forEach] of [getGlobalFavoritesCount]. *)
Definition addFavorites (count : Z) (playlist : obj) : option Z :=
  len ← prop "length" (field "favorites" playlist);
  if gt_zero len then n ← to_number len; Some (count + n)%Z
  else Some count.

(** The [map] callback of [getGlobalFavoritesCount]. *)
Definition favoritesCount (playlists : list obj) : option Z :=
  forEach playlists addFavorites 0%Z.

(** Returns the count of favorite channels from all playlists. *)
Definition getGlobalFavoritesCount : M Z :=
  playlists ← getAll; liftE (favoritesCount playlists).

(** Sends a message with playlist that contains favorite channels from
    all available playlists. *)
Definition sendPlaylistWithGlobalFavorites : M unit :=
  playlists ← getAll;
  favoriteChannels ← liftE (aggregateFavoriteChannels playlists);
  let favPlaylist := createFavoritesPlaylist favoriteChannels in
  postMessage PLAYLIST_PARSE_RESPONSE {[ "payload" := VObj favPlaylist ]}.

(** Parses string based array to playlist object. *)
Definition parsePlaylist (m3uArray : value) : option ParsedPlaylist :=
  lines ← as_array m3uArray;
  let playlistAsString := array_join newline lines in
  Some (parse playlistAsString).

(** Converts file string to playlist object. *)
Definition convertFileStringToPlaylist (m3uString : value)
    : option ParsedPlaylist :=
  match m3uString with
  | VStr s => parsePlaylist (VArr (VStr <$> split LF s))
  | _ => None
  end.

(** Builds the record that is saved for an imported playlist. *)
Definition createPlaylistObject (name : value) (playlist : ParsedPlaylist)
    (urlOrPath : value) (uploadType : option upload_type) : M obj :=
  id ← guid;
  entries ← mapM (λ item,
                g ← guid;
                mret (VObj (extend {[ "id" := VStr g ]} (spread item))))
             (items playlist);
  importDate ← new_Date_toISOString;
  lastUsage ← new_Date_toISOString;
  mret (extend (extend
    (list_to_map [
       ("id", VStr id);
       ("_id", VStr id);
       ("filename", name);
       ("title", name);
       ("count", VNum (Z.of_nat (length (items playlist))));
       ("playlist",
         VObj (extend (spread_parsed playlist) {[ "items" := VArr entries ]}));
       ("importDate", VStr importDate);
       ("lastUsage", VStr lastUsage);
       ("favorites", VArr []);
       ("autoRefresh", VBool false)
     ])
    (match uploadType with
     | Some URL => {[ "url" := urlOrPath ]}
     | _ => ∅
     end))
    (match uploadType with
     | Some FILE => {[ "filePath" := urlOrPath ]}
     | _ => ∅
     end)).

(** Fetches playlist from the specified url. *)
Definition fetchFromUrl (payload : value) : M unit :=
  url ← liftE (prop "url" payload);
  r ← http_get (corsProxyUrl +:+ to_string url);
  match r with
  | HttpError error =>
      status ← liftE (prop "status" error);
      postMessage ERROR
        (list_to_map [("message", VStr "something went wrong");
                      ("status", status)]);;
      throw (HttpErrorResponse error)
  | HttpOk response =>
      postMessage PLAYLIST_PARSE_RESPONSE {[ "payload" := response ]};;
      add response;;
      mret ()
  end.

(** The record written by the refresh: the body of the [switchMap] of
    the [PLAYLIST_UPDATE] branch. *)
Definition refreshedRecord (currentPlaylist : value)
    (refreshedPlaylist : ParsedPlaylist) (now : Z) : obj :=
  <["updateState" := UPDATED]>
    (<["updateDate" := VNum now]>
       (<["count" := VNum (Z.of_nat (length (items refreshedPlaylist)))]>
          (extend (extend ∅ (spread currentPlaylist))
                  (spread_parsed refreshedPlaylist)))).

(** The requests of the [PLAYLIST_UPDATE_POSITIONS] branch, from the
    given index on: each reads the record of its key and writes it back
    with its index as position. *)
Fixpoint positionRequests (index : nat) (keys : list value) : M unit :=
  match keys with
  | [] => mret ()
  | key :: keys' =>
      playlist ← getByID key;
      update (<["position" := VNum (Z.of_nat index)]>
                (extend ∅ (spread playlist)));;
      positionRequests (S index) keys'
  end.

(** Handles incoming IPC commands. *)
Definition sendIpcEvent (type : ipc_command) (payload : value) : M unit :=
  match type with
  | PLAYLIST_PARSE =>
      lines ← liftE (prop "playlist" payload);
      parsedPlaylist ← liftE (parsePlaylist lines);
      title ← liftE (prop "title" payload);
      path ← liftE (prop "path" payload);
      playlistObject ← createPlaylistObject title parsedPlaylist path
                         (Some FILE);
      postMessage PLAYLIST_PARSE_RESPONSE
        {[ "payload" := VObj playlistObject ]};;
      add (VObj playlistObject);;
      mret ()
  | PLAYLIST_GET_BY_ID =>
      id ← liftE (prop "id" payload);
      if same_value_zero id (VStr GLOBAL_FAVORITES_PLAYLIST_ID) then
        sendPlaylistWithGlobalFavorites
      else
        playlist ← getByIndex "_id" id;
        postMessage PLAYLIST_PARSE_RESPONSE {[ "payload" := playlist ]}
  | PLAYLIST_REMOVE_BY_ID =>
      id ← liftE (prop "id" payload);
      playlist ← delete_ id;
      postMessage PLAYLIST_REMOVE_BY_ID_RESPONSE
        {[ "payload" := VArr (VObj <$> playlist) ]}
  | PLAYLIST_GET_ALL =>
      playlists ← getAll;
      postMessage PLAYLIST_GET_ALL_RESPONSE
        {[ "payload" :=
             VArr (VObj <$> sort (λ a b, sub (field "position" a)
                                             (field "position" b))
                                 playlists) ]}
  | PLAYLIST_SAVE_DETAILS =>
      _id ← liftE (prop "_id" payload);
      playlist ← getByID _id;
      title ← liftE (prop "title" payload);
      playlists ← update (<["title" := title]> (extend ∅ (spread playlist)));
      postMessage PLAYLIST_GET_ALL_RESPONSE
        {[ "payload" := VArr (VObj <$> playlists) ]}
  | PLAYLIST_UPDATE_FAVORITES =>
      id ← liftE (prop "id" payload);
      playlist ← getByID id;
      favorites ← liftE (prop "favorites" payload);
      update (<["favorites" := favorites]> (extend ∅ (spread playlist)));;
      mret ()
  | PLAYLIST_PARSE_BY_URL => fetchFromUrl payload
  | PLAYLIST_UPDATE =>
      url ← liftE (prop "url" payload);
      r ← http_get (corsProxyUrl +:+ to_string url);
      match r with
      | HttpError error =>
          postMessage ERROR ∅;;
          throw (HttpErrorResponse error)
      | HttpOk response =>
          refreshedPlaylist ← liftE (convertFileStringToPlaylist response);
          id ← liftE (prop "id" payload);
          currentPlaylist ← getByID id;
          now ← Date_now;
          playlists ← update (refreshedRecord currentPlaylist
                                refreshedPlaylist now);
          postMessage PLAYLIST_GET_ALL_RESPONSE
            {[ "payload" := VArr (VObj <$> playlists) ]}
      end
  | PLAYLIST_UPDATE_POSITIONS =>
      batch ← liftE (as_array payload);
      keys ← liftE (mapM (prop "_id") batch);
      positionRequests 0 keys
  | _ => mret ()
  end.

End PwaService.

(** ** The shape of stored records *)

Definition is_string (v : value) : bool :=
  match v with VStr _ => true | _ => false end.

Definition is_object (v : value) : bool :=
  match v with VObj _ => true | _ => false end.

(** Modelled from the spec: the [Playlist] interface of
    shared/playlist.interface, as far as the aggregation reads it. The
    favorites, when present, are an array of entry identifiers (strings);
    the nested parsed playlist holds the array of entries, each an
    object. *)
Definition is_Playlist (p : obj) : bool :=
  match p !! "favorites" with
  | None | Some VUndefined => true
  | Some (VArr l) => forallb is_string l
  | Some _ => false
  end &&
  match p !! "playlist" with
  | Some (VObj pl) =>
      match pl !! "items" with
      | Some (VArr l) => forallb is_object l
      | _ => false
      end
  | _ => false
  end.

(** The identifiers in a playlist's favorites set; none when the set is
    absent. *)
Definition favorite_ids (p : obj) : list string :=
  match field "favorites" p with
  | VArr l => omap (λ v, match v with VStr s => Some s | _ => None end) l
  | _ => []
  end.

(** The entry sequence of a stored playlist, [playlist.items]. *)
Definition entries (p : obj) : list value :=
  match field "playlist" p with
  | VObj pl => match field "items" pl with VArr l => l | _ => [] end
  | _ => []
  end.

(** The identifier of an entry. *)
Definition entry_id (ch : value) : option string :=
  match ch with
  | VObj c => match c !! "id" with Some (VStr s) => Some s | _ => None end
  | _ => None
  end.

(** An entry is a favorite of its owning playlist when its identifier is
    a member of the playlist's favorites set. *)
Definition is_favorite (p : obj) (ch : value) : bool :=
  match entry_id ch with
  | Some s => bool_decide (s ∈ favorite_ids p)
  | None => false
  end.

(** The favorite entries of one playlist, in the playlist's entry
    order. *)
Definition selected (p : obj) : list value :=
  List.filter (is_favorite p) (entries p).



(** The favorites of a record are an array or are missing; the entries
    and everything else may be anything. *)
Definition favorites_listed (p : obj) : bool :=
  match field "favorites" p with
  | VArr _ | VUndefined | VNull => true
  | _ => false
  end.




(** ** Identifiers across invocations of the normaliser *)

(** The arguments of one call of [createPlaylistObject]. *)
Record invocation := Invocation {
  inv_name : value;
  inv_playlist : ParsedPlaylist;
  inv_urlOrPath : value;
  inv_uploadType : option upload_type
}.

(** The [id] property an entry ends up with. *)
Definition identifier (entry : value) : value :=
  default VUndefined (prop "id" entry).

(** An entry that comes without an identifier. *)
Definition lacks_id (item : value) : bool :=
  match spread item !! "id" with None => true | Some _ => false end.

(** The entries [createPlaylistObject] builds when [guid()] has been
    called [g] times before the call: the i-th entry is offered the
    identifier drawn after the playlist's own and the i earlier
    entries'. *)
Definition normalized (guid_src : nat → string) (g : nat)
    (items : list value) : list value :=
  imap (λ i item,
          VObj (extend {[ "id" := VStr (guid_src (S g + i)) ]} (spread item)))
       items.

(** Calling the normaliser on each of the invocations in turn. *)
Definition normalizeAll (guid_src : nat → string) (clock : nat → Z)
    (toISOString : Z → string) (calls : list invocation) : M (list obj) :=
  mapM (λ c, createPlaylistObject guid_src clock toISOString
               (inv_name c) (inv_playlist c) (inv_urlOrPath c)
               (inv_uploadType c)) calls.

(** The calls of [guid()] that name the playlists, when the generator has
    been called [g] times before the first invocation. *)
Fixpoint playlist_slots (g : nat) (calls : list invocation) : list nat :=
  match calls with
  | [] => []
  | c :: calls' =>
      g :: playlist_slots (S g + length (items (inv_playlist c))) calls'
  end.

(** The calls of [guid()] that are offered to the entries. *)
Fixpoint entry_slots (g : nat) (calls : list invocation) : list nat :=
  match calls with
  | [] => []
  | c :: calls' =>
      seq (S g) (length (items (inv_playlist c)))
      ++ entry_slots (S g + length (items (inv_playlist c))) calls'
  end.

(** The number of identifiers drawn by the invocations. *)
Definition drawn (calls : list invocation) : nat :=
  sum_list_with (λ c, S (length (items (inv_playlist c)))) calls.

(** ** Ordering by position *)

(** The comparator handed to [sort] by the [PLAYLIST_GET_ALL] branch. *)
Definition byPosition (a b : obj) : option Z :=
  sub (field "position" a) (field "position" b).

Definition position (p : obj) : option Z := to_number (field "position" p).

Definition has_position (p : obj) : bool :=
  match field "position" p with VNum _ => true | _ => false end.

(** [a] may stand before [b] in an ascending order of positions; a
    record without a position is not constrained. *)
Definition ascending (a b : obj) : Prop :=
  match position a, position b with
  | Some x, Some y => (x ≤ y)%Z
  | _, _ => True
  end.

#[global] Instance ascending_dec a b : Decision (ascending a b).
Proof. unfold ascending. destruct (position a), (position b); apply _. Defined.

(** ** Consistency of the object store *)

(** Every record is stored under the value of its key path. *)
Definition keyed (keyPath : string) (d : gmap string obj) : Prop :=
  map_Forall (λ k r, key_of keyPath r = Some k) d.

(** The key path is one of the two identity fields the normaliser
    sets. *)
Definition identity_field (keyPath : string) : Prop :=
  keyPath = "id" ∨ keyPath = "_id".

(** The collection as [getAll] delivers it. *)
Definition stored (w : world) : list obj := by_key (db w).

(** ** What a command leaves behind *)

(** The world after a computation, whether it completed or failed. *)
Definition world_after {A} (o : outcome A) : world :=
  match o with Ok _ w | Fault _ w => w end.

(** A computation relates every world it is started in to the world it
    leaves behind. *)
Definition respects (R : relation world) {A} (m : M A) : Prop :=
  ∀ w, R w (world_after (m w)).

(** Nothing but the messages changes. *)
Definition only_posts : relation world :=
  λ w w', db w' = db w ∧ requests w' = requests w ∧
          guids w' = guids w ∧ ticks w' = ticks w.

(** No URL is requested. *)
Definition offline : relation world := λ w w', requests w' = requests w.

(** No identifier is drawn. *)
Definition draws_nothing : relation world := λ w w', guids w' = guids w.

(** ** Sample data *)

Module Sample.

Definition entry (id name : string) : value :=
  VObj (list_to_map [("id", VStr id); ("name", VStr name)]).

(** The display name of an entry. *)
Definition name_of (entry : value) : value :=
  default VUndefined (prop "name" entry).

(** An entry as the parser delivers it, without identifier. *)
Definition parsed (name : string) : value :=
  VObj (list_to_map [("name", VStr name); ("url", VStr ("http://tv/" +:+ name))]).

Definition record (id title : string) (favorites : list string)
    (channels : list value) : obj :=
  list_to_map [
    ("id", VStr id); ("_id", VStr id); ("title", VStr title);
    ("filename", VStr title);
    ("count", VNum (Z.of_nat (length channels)));
    ("playlist", VObj (list_to_map [("header", VObj ∅);
                                    ("items", VArr channels)]));
    ("importDate", VStr "2023-01-01T00:00:00.000Z");
    ("lastUsage", VStr "2023-01-01T00:00:00.000Z");
    ("favorites", VArr (VStr <$> favorites));
    ("autoRefresh", VBool false);
    ("url", VStr "http://tv/list.m3u")
  ].

(** P1 with favorites {a} and entries [a; b], P2 with favorites {c} and
    entries [c; d]. *)
Definition P1 : obj := record "p1" "One" ["a"] [entry "a" "A"; entry "b" "B"].
Definition P2 : obj := record "p2" "Two" ["c"] [entry "c" "C"; entry "d" "D"].

(** A record as a proxy may deliver it: without favorites. *)
Definition P4 : obj := delete "favorites" (record "p4" "Four" [] [entry "f" "F"]).

(** A playlist whose only favorite is carried by no entry any more. *)
Definition P3 : obj := record "p3" "Three" ["x"] [entry "e" "E"].


(** A world whose store holds the given records under the given keys
    and in which nothing has happened yet. *)
Definition world_of (records : list (string * obj)) : world :=
  World (list_to_map records) [] [] 0 0.

Definition guid_src (n : nat) : string := "g" +:+ pretty n.
Definition clock (n : nat) : Z := (1700000000000 + Z.of_nat n)%Z.
(** A stand-in for the ISO-8601 rendering of an instant. *)
Definition toISOString (t : Z) : string := "T" +:+ pretty t.
(** A stand-in for the parser: one entry per line. *)
Definition parse (s : string) : ParsedPlaylist :=
  {| header := VObj ∅; items := parsed <$> split LF s |}.
Definition corsProxyUrl : string := "http://localhost:3000/parse?url=".
(** A transport that knows one playlist and fails for every other
    URL. *)
Definition http (url : string) : http_result :=
  if decide (url = corsProxyUrl +:+ "http://tv/list.m3u")
  then HttpOk (VStr ("News" +:+ newline +:+ "Sport" +:+ newline +:+ "Films"))
  else HttpError (VObj {[ "status" := VNum 404 ]}).
Definition UPDATED : value := VNum 0.
Definition keyPath : string := "_id".

(** A proxy that delivers the record P2 for one URL and fails for every
    other. *)
Definition proxy (url : string) : http_result :=
  if decide (url = corsProxyUrl +:+ "http://tv/two.m3u")
  then HttpOk (VObj P2)
  else HttpError (VObj {[ "status" := VNum 404 ]}).

(** The handler with the sample collaborators. *)
Definition handle : ipc_command → value → M unit :=
  sendIpcEvent guid_src clock toISOString parse http corsProxyUrl keyPath
    UPDATED.

Definition at_position (n : Z) (r : obj) : obj := <["position" := VNum n]> r.

(** Two playlists that have been reordered, P4 before P1, and two that
    were imported afterwards and have no position yet. *)
Definition unplaced : list (string * obj) := [
  ("p1", at_position 1 P1); ("p2", P2); ("p3", P3);
  ("p4", at_position 0 P4)
].


(** Three playlists at the positions 2, 0 and 1. *)
Definition positioned : list (string * obj) := [
  ("p1", at_position 2 P1); ("p2", at_position 0 P2);
  ("p3", at_position 1 P3)
].

(** The payload of a refresh request for a playlist. *)
Definition refresh (id url : string) : obj :=
  list_to_map [("id", VStr id); ("url", VStr url)].

(** The text the sample transport delivers for the known playlist. *)
Definition body : string :=
  "News" +:+ newline +:+ "Sport" +:+ newline +:+ "Films".

(** The payload of a request by identifier. *)
Definition by_id (id : string) : obj := {[ "id" := VStr id ]}.

(** The payload of a title edit. *)
Definition rename (id title : string) : obj :=
  list_to_map [("_id", VStr id); ("title", VStr title)].

(** The payload of a file import. *)
Definition upload : obj :=
  list_to_map [("playlist", VArr [VStr "News"; VStr "Sport"]);
               ("title", VStr "Mine"); ("path", VStr "/tmp/mine.m3u")].

(** The handler with the proxy as transport. *)
Definition handle_proxy : ipc_command → value → M unit :=
  sendIpcEvent guid_src clock toISOString parse proxy corsProxyUrl keyPath
    UPDATED.

(** The payload of a favorites update. *)
Definition favor (id : string) (favorites : list string) : obj :=
  list_to_map [("id", VStr id); ("favorites", VArr (VStr <$> favorites))].


(** A parsed playlist of two entries that both carry the identifier
    ["a"]. *)
Definition twins : ParsedPlaylist :=
  {| header := VObj ∅; items := [entry "a" "A"; entry "a" "B"] |}.

(** Two imports of freshly parsed files. *)
Definition imports : list invocation := [
  Invocation (VStr "one") (parse ("News" +:+ newline +:+ "Sport"))
             (VStr "/tmp/one.m3u") (Some FILE);
  Invocation (VStr "two") (parse "Films") (VStr "http://tv/two.m3u")
             (Some URL)
].

End Sample.

(** * Properties *)

(** A property of every element of a concrete list is checked by
    evaluating it. *)
Lemma Forall_by_forallb {A} (f : A → bool) (l : list A) :
  forallb f l = true → Forall (λ x, Is_true (f x)) l.
Proof.
  induction l as [|x l IH]; [constructor|]. intros [Hx Hl]%andb_true_iff.
  constructor; [by apply Is_true_true | by apply IH].
Qed.

(** ** Favourites aggregation *)

Lemma includes_strings (l : list value) (x : value) :
  forallb is_string l = true →
  includes l x =
    match x with
    | VStr s => bool_decide (s ∈ omap (λ v, match v with VStr s => Some s | _ => None end) l)
    | _ => false
    end.
Proof.
  induction l as [|v l IH]; simpl.
  - intros _. by destruct x.
  - intros [Hv Hl]%andb_true_iff. unfold includes in *. simpl.
    rewrite (IH Hl). destruct v; try done. simpl.
    destruct x; simpl; try done.
    destruct (decide (s0 = s)) as [->|Hne].
    + rewrite bool_decide_eq_true_2 by done. simpl.
      symmetry. apply bool_decide_eq_true_2. set_solver.
    + rewrite (bool_decide_eq_false_2 (s0 = s)) by done. simpl.
      apply bool_decide_ext. set_solver.
Qed.

Lemma is_favorite_includes (p : obj) (favs : list value) (c : obj) :
  field "favorites" p = VArr favs →
  forallb is_string favs = true →
  includes favs (field "id" c) = is_favorite p (VObj c).
Proof.
  intros Hf Hs. rewrite includes_strings by done.
  unfold is_favorite, favorite_ids, entry_id. rewrite Hf.
  unfold field. destruct (c !! "id") as [[]|]; done.
Qed.

Lemma selected_no_favorites (p : obj) : favorite_ids p = [] → selected p = [].
Proof.
  intros Hnone. unfold selected.
  induction (entries p) as [|ch l IH]; [done|].
  simpl. rewrite IH. unfold is_favorite. rewrite Hnone.
  destruct (entry_id ch); [|done].
  rewrite bool_decide_eq_false_2; [done | apply not_elem_of_nil].
Qed.

Lemma gt_zero_succ (n : nat) : gt_zero (VNum (Z.of_nat (S n))) = true.
Proof.
  unfold gt_zero. cbn [to_number]. apply bool_decide_eq_true_2. lia.
Qed.

Lemma forEach_cons {A S : Type} (x : A) (l : list A)
    (body : S → A → option S) (s : S) :
  forEach (x :: l) body s = body s x ≫= forEach l body.
Proof. reflexivity. Qed.

Lemma pushFavorite_object (p : obj) (favs acc : list value) (c : obj) :
  field "favorites" p = VArr favs →
  forallb is_string favs = true →
  pushFavorite p acc (VObj c)
  = Some (if is_favorite p (VObj c) then acc ++ [VObj c] else acc).
Proof.
  intros Hf Hs. unfold pushFavorite. rewrite Hf. simpl.
  rewrite (is_favorite_includes p favs c Hf Hs).
  by destruct (is_favorite p (VObj c)).
Qed.

(** The inner [forEach] pushes the favorite entries of the playlist, in
    order, behind what has been collected so far. *)
Lemma inner_forEach (p : obj) (favs channels acc : list value) :
  field "favorites" p = VArr favs →
  forallb is_string favs = true →
  forallb is_object channels = true →
  forEach channels (pushFavorite p) acc
  = Some (acc ++ List.filter (is_favorite p) channels).
Proof.
  intros Hf Hs. revert acc.
  induction channels as [|ch l IH]; intros acc Hobj.
  - simpl. by rewrite app_nil_r.
  - apply andb_true_iff in Hobj as [Hch Hl]. destruct ch; try done.
    rewrite forEach_cons, (pushFavorite_object p favs) by done.
    simpl. rewrite IH by done.
    destruct (is_favorite p (VObj o)); [|done].
    by rewrite <- app_assoc.
Qed.

Lemma collectFavorites_selected (p : obj) (acc : list value) :
  is_Playlist p → collectFavorites acc p = Some (acc ++ selected p).
Proof.
  intros [Hfav Hpl]%Is_true_true%andb_true_iff.
  assert (prop "items" (field "playlist" p) ≫= as_array = Some (entries p) ∧
          forallb is_object (entries p) = true) as [Hitems Hobjs].
  { unfold entries, field in *.
    destruct (p !! "playlist") as [[]|]; try done. simpl.
    unfold field. destruct (o !! "items") as [[]|]; try done. }
  assert (field "favorites" p = VUndefined ∨ field "favorites" p = VArr [] →
          collectFavorites acc p = Some (acc ++ selected p)) as Hskip.
  { intros Hv. rewrite selected_no_favorites, app_nil_r.
    - unfold collectFavorites. by destruct Hv as [-> | ->].
    - unfold favorite_ids. by destruct Hv as [-> | ->]. }
  unfold field in Hskip.
  destruct (p !! "favorites") as [fv|] eqn:Ef; [|by apply Hskip; left].
  destruct fv as [| | | | |[|f favs]|]; try done;
    [by apply Hskip; left | by apply Hskip; right |].
  assert (field "favorites" p = VArr (f :: favs)) as Hf
    by (unfold field; by rewrite Ef).
  unfold collectFavorites. rewrite Hf.
  change (optional_prop "length" (VArr (f :: favs)))
    with (VNum (Z.of_nat (S (length favs)))).
  rewrite gt_zero_succ, Hitems. simpl.
  by apply (inner_forEach p (f :: favs)).
Qed.

Lemma aggregate_from (playlists : list obj) (acc : list value) :
  Forall is_Playlist playlists →
  forEach playlists collectFavorites acc
  = Some (acc ++ (playlists ≫= selected)).
Proof.
  intros Hall. revert acc.
  induction Hall as [|p l Hp Hl IH]; intros acc.
  - simpl. by rewrite app_nil_r.
  - rewrite forEach_cons, collectFavorites_selected by done. simpl.
    rewrite IH. by rewrite <- app_assoc.
Qed.

Lemma aggregate_selected (playlists : list obj) :
  Forall is_Playlist playlists →
  aggregateFavoriteChannels playlists = Some (playlists ≫= selected).
Proof. apply (aggregate_from playlists []). Qed.

Lemma collectFavorites_skip (p : obj) (acc : list value) :
  field "favorites" p = VUndefined ∨ field "favorites" p = VArr [] →
  collectFavorites acc p = Some acc.
Proof. unfold collectFavorites. by intros [-> | ->]. Qed.

(** C3. The global favorites aggregate holds exactly the entries whose
    identifier is a member of their owning playlist's favorites set,
    playlist after playlist in the order of the collection and inside a
    playlist in its entry order; a playlist whose favorites set is empty
    or absent contributes nothing; the aggregate's count is the number of
    entries selected. *)
Theorem aggregate_favorites_exact (playlists : list obj) :
  Forall is_Playlist playlists →
  aggregateFavoriteChannels playlists = Some (playlists ≫= selected) ∧
  (∀ p acc,
     field "favorites" p = VUndefined ∨ field "favorites" p = VArr [] →
     collectFavorites acc p = Some acc ∧ selected p = []) ∧
  ∃ channels,
    aggregateFavoriteChannels playlists = Some channels ∧
    createFavoritesPlaylist channels !! "playlist"
      = Some (VObj {[ "items" := VArr (playlists ≫= selected) ]}) ∧
    createFavoritesPlaylist channels !! "count"
      = Some (VNum (Z.of_nat (length (playlists ≫= selected)))).
Proof.
  intros Hall. pose proof (aggregate_selected playlists Hall) as Hagg.
  split; [done|]. split.
  - intros p acc Hnone. split; [by apply collectFavorites_skip|].
    apply selected_no_favorites. unfold favorite_ids.
    by destruct Hnone as [-> | ->].
  - exists (playlists ≫= selected). split; [done|]. split; reflexivity.
Qed.

Lemma aggregate_favorites_exact_witness :
  Forall is_Playlist [Sample.P1; Sample.P2] ∧
  aggregateFavoriteChannels [Sample.P1; Sample.P2]
    = Some [Sample.entry "a" "A"; Sample.entry "c" "C"].
Proof.
  split.
  - apply Forall_by_forallb. vm_compute. reflexivity.
  - apply (aggregate_favorites_exact [Sample.P1; Sample.P2]).
    apply Forall_by_forallb. vm_compute. reflexivity.
Defined.

(** ** The favorites counter *)















Lemma getAll_stored (w : world) : getAll w = Ok (stored w) w.
Proof. reflexivity. Qed.

(** The store delivers every record once: the delivery is a
    rearrangement of the records of the map. *)
Lemma by_key_records (d : gmap string obj) :
  by_key d ≡ₚ (map_to_list d).*2.
Proof. unfold by_key. by rewrite merge_sort_Permutation. Qed.

Lemma stored_elem (w : world) (r : obj) :
  r ∈ stored w ↔ ∃ k, db w !! k = Some r.
Proof.
  unfold stored. rewrite by_key_records, list_elem_of_fmap. split.
  - intros ([k r'] & -> & Hkr). exists k. by apply elem_of_map_to_list.
  - intros (k & Hk). exists (k, r). split; [done|].
    by apply elem_of_map_to_list.
Qed.




(** ** The normaliser *)

Section normaliser.
Context (guid_src : nat → string) (clock : nat → Z) (toISOString : Z → string).

Local Abbreviation createPlaylistObject :=
  (createPlaylistObject guid_src clock toISOString).
Local Abbreviation normalizeAll := (normalizeAll guid_src clock toISOString).

Lemma mapM_M_cons {A B} (f : A → M B) (x : A) (l : list A) (w : world) :
  mapM f (x :: l) w
  = match f x w with
    | Ok y w1 =>
        match mapM f l w1 with
        | Ok k w2 => Ok (y :: k) w2
        | Fault e w2 => Fault e w2
        end
    | Fault e w1 => Fault e w1
    end.
Proof.
  cbn [mapM]. unfold mbind at 1, M_bind, bind.
  destruct (f x w) as [y w1|]; [|done].
  unfold mbind, M_bind, bind. by destruct (mapM f l w1).
Qed.

Lemma bind_Ok {A B} (m : M A) (k : A → M B) (w w' : world) (a : A) :
  m w = Ok a w' → (m ≫= k) w = k a w'.
Proof. intros Hm. unfold mbind, M_bind, bind. by rewrite Hm. Qed.

Lemma entries_from (n : nat) (items : list value) (w : world) :
  guids w = n →
  mapM (λ item, g ← guid guid_src;
                mret (VObj (extend {[ "id" := VStr g ]} (spread item))))
       items w
  = Ok (imap (λ i item,
          VObj (extend {[ "id" := VStr (guid_src (n + i)) ]} (spread item)))
          items)
       (World (db w) (posted w) (requests w) (n + length items) (ticks w)).
Proof.
  revert n w. induction items as [|item items IH]; intros n w Hn.
  - simpl. unfold mret, M_ret, ret. destruct w; simpl in *.
    by rewrite Hn, Nat.add_0_r.
  - rewrite mapM_M_cons.
    change ((guid guid_src ≫= λ g,
               mret (VObj (extend {[ "id" := VStr g ]} (spread item)))) w)
      with (Ok (VObj (extend {[ "id" := VStr (guid_src (guids w)) ]}
                        (spread item)))
               (World (db w) (posted w) (requests w) (S (guids w)) (ticks w))).
    lazy beta iota.
    rewrite (IH (S n)) by (simpl; lia). cbn [imap db posted requests ticks].
    rewrite Hn, Nat.add_0_r.
    replace (n + length (item :: items)) with (S n + length items)
      by (simpl; lia).
    do 2 f_equal. apply imap_ext. intros i x _. simpl.
    by rewrite Nat.add_succ_r.
Qed.

(** What [createPlaylistObject] returns and how it leaves the world. *)
Lemma createPlaylistObject_runs (name : value) (playlist : ParsedPlaylist)
    (urlOrPath : value) (uploadType : option upload_type) (w : world) :
  createPlaylistObject name playlist urlOrPath uploadType w
  = Ok (extend (extend
         (list_to_map [
            ("id", VStr (guid_src (guids w)));
            ("_id", VStr (guid_src (guids w)));
            ("filename", name);
            ("title", name);
            ("count", VNum (Z.of_nat (length (items playlist))));
            ("playlist",
              VObj (extend (spread_parsed playlist)
                      {[ "items" :=
                           VArr (normalized guid_src (guids w)
                                   (items playlist)) ]}));
            ("importDate", VStr (toISOString (clock (ticks w))));
            ("lastUsage", VStr (toISOString (clock (S (ticks w)))));
            ("favorites", VArr []);
            ("autoRefresh", VBool false)
          ])
         (match uploadType with
          | Some URL => {[ "url" := urlOrPath ]}
          | _ => ∅
          end))
         (match uploadType with
          | Some FILE => {[ "filePath" := urlOrPath ]}
          | _ => ∅
          end))
       (World (db w) (posted w) (requests w)
              (S (guids w) + length (items playlist)) (S (S (ticks w)))).
Proof.
  unfold createPlaylistObject.
  rewrite (bind_Ok _ _ w
             (World (db w) (posted w) (requests w) (S (guids w)) (ticks w))
             (guid_src (guids w))) by done.
  erewrite bind_Ok by (by apply (entries_from (S (guids w)))).
  reflexivity.
Qed.

(** C4. The record built by [createPlaylistObject] carries one freshly
    drawn identifier as both [id] and [_id], no favorites, auto-refresh
    off, the ISO renderings of the clock as import and last-usage dates,
    the number of its entries as count, and exactly the origin property
    of its upload type, the other one being absent. *)
Theorem createPlaylistObject_fields (name : value)
    (playlist : ParsedPlaylist) (urlOrPath : value) (kind : upload_type)
    (w : world) :
  ∃ record w',
    createPlaylistObject name playlist urlOrPath (Some kind) w
      = Ok record w' ∧
    record !! "id" = Some (VStr (guid_src (guids w))) ∧
    record !! "_id" = Some (VStr (guid_src (guids w))) ∧
    record !! "favorites" = Some (VArr []) ∧
    record !! "autoRefresh" = Some (VBool false) ∧
    record !! "importDate" = Some (VStr (toISOString (clock (ticks w)))) ∧
    record !! "lastUsage"
      = Some (VStr (toISOString (clock (S (ticks w))))) ∧
    length (entries record) = length (items playlist) ∧
    record !! "count" = Some (VNum (Z.of_nat (length (entries record)))) ∧
    match kind with
    | URL => record !! "url" = Some urlOrPath ∧ record !! "filePath" = None
    | FILE => record !! "filePath" = Some urlOrPath ∧ record !! "url" = None
    end.
Proof.
  eexists _, _. split; [apply createPlaylistObject_runs|].
  assert (∀ record : obj,
    record !! "playlist"
      = Some (VObj (extend (spread_parsed playlist)
                      {[ "items" := VArr (normalized guid_src (guids w)
                                            (items playlist)) ]})) →
    length (entries record) = length (items playlist)) as Hlen.
  { intros record Hp. unfold entries, field. rewrite Hp.
    change (length (normalized guid_src (guids w) (items playlist))
            = length (items playlist)).
    apply length_imap. }
  destruct kind.
  - repeat split; try reflexivity.
    + by apply Hlen.
    + rewrite Hlen by reflexivity. reflexivity.
  - repeat split; try reflexivity.
    + by apply Hlen.
    + rewrite Hlen by reflexivity. reflexivity.
Qed.

Lemma createPlaylistObject_result (name : value) (playlist : ParsedPlaylist)
    (urlOrPath : value) (uploadType : option upload_type) (w : world) :
  ∃ record,
    createPlaylistObject name playlist urlOrPath uploadType w
      = Ok record
           (World (db w) (posted w) (requests w)
                  (S (guids w) + length (items playlist))
                  (S (S (ticks w)))) ∧
    field "id" record = VStr (guid_src (guids w)) ∧
    entries record = normalized guid_src (guids w) (items playlist).
Proof.
  eexists. split; [apply createPlaylistObject_runs|].
  by destruct uploadType as [[]|].
Qed.

Lemma identifier_normalized (g : nat) (l : list value) :
  Forall lacks_id l →
  identifier <$> normalized guid_src g l
  = (VStr ∘ guid_src) <$> seq (S g) (length l).
Proof.
  unfold normalized. revert g. induction l as [|item l IH]; intros g Hl.
  - done.
  - apply Forall_cons in Hl as [Hitem Hl]. cbn [imap length seq fmap list_fmap].
    f_equal.
    + unfold identifier, prop, field, extend, lacks_id in *.
      rewrite lookup_union. destruct (spread item !! "id"); [done|].
      rewrite Nat.add_0_r. reflexivity.
    + rewrite <- (IH (S g) Hl). f_equal. apply imap_ext. intros i x _.
      simpl. by rewrite Nat.add_succ_r.
Qed.

Lemma slots_are_a_range (g : nat) (calls : list invocation) :
  playlist_slots g calls ++ entry_slots g calls ≡ₚ seq g (drawn calls).
Proof.
  revert g. induction calls as [|c calls IH]; intros g; [done|].
  unfold drawn. cbn [playlist_slots entry_slots sum_list_with].
  fold (drawn calls).
  replace (S (length (items (inv_playlist c))) + drawn calls)
    with (S (length (items (inv_playlist c)) + drawn calls)) by lia.
  cbn [seq]. rewrite seq_app, <- (IH (S g + _)).
  simpl. f_equiv. rewrite !app_assoc. f_equiv. apply Permutation_app_comm.
Qed.

(** Running the invocations one after the other: which identifier each
    playlist and each entry ends up with. *)
Lemma normalizeAll_identifiers (calls : list invocation) (w : world) :
  ∃ records w',
    normalizeAll calls w = Ok records w' ∧
    guids w' = guids w + drawn calls ∧
    field "id" <$> records
      = (VStr ∘ guid_src) <$> playlist_slots (guids w) calls ∧
    (Forall (λ c, Forall lacks_id (items (inv_playlist c))) calls →
     identifier <$> (records ≫= entries)
       = (VStr ∘ guid_src) <$> entry_slots (guids w) calls).
Proof.
  revert w. induction calls as [|c calls IH]; intros w.
  - exists [], w. unfold drawn. simpl. rewrite Nat.add_0_r. done.
  - destruct (createPlaylistObject_result (inv_name c) (inv_playlist c)
                (inv_urlOrPath c) (inv_uploadType c) w)
      as (record & Hrun & Hid & Hentries).
    destruct (IH (World (db w) (posted w) (requests w)
                    (S (guids w) + length (items (inv_playlist c)))
                    (S (S (ticks w)))))
      as (records & w' & Hrest & Hguids & Hids & Heids).
    exists (record :: records), w'. split; [|split; [|split]].
    + unfold normalizeAll in *. rewrite mapM_M_cons, Hrun, Hrest. done.
    + rewrite Hguids. unfold drawn. simpl. lia.
    + cbn [fmap list_fmap playlist_slots]. rewrite Hid. f_equal. apply Hids.
    + intros [Hc Hcalls]%Forall_cons.
      rewrite bind_cons, fmap_app, Hentries, identifier_normalized by done.
      cbn [entry_slots]. rewrite fmap_app. f_equal. by apply Heids.
Qed.

(** An entry that comes with an identifier keeps it: the generated one
    is overwritten by the spread of the entry. *)
Lemma carried_identifier_kept (g : string) (item : value) (v : value) :
  spread item !! "id" = Some v →
  identifier (VObj (extend {[ "id" := VStr g ]} (spread item))) = v.
Proof.
  intros Hid. unfold identifier, prop, field, extend.
  by rewrite lookup_union, Hid.
Qed.

(** C5, as amended. With a generator that never repeats, over any
    sequence of invocations whose entries come without identifier, the
    identifiers of all produced playlists and entries are pairwise
    distinct, and every entry identifier is one drawn during the run. *)
Theorem fresh_identifiers_distinct (calls : list invocation) (w : world) :
  Inj (=) (=) guid_src →
  Forall (λ c, Forall lacks_id (items (inv_playlist c))) calls →
  ∃ records w',
    normalizeAll calls w = Ok records w' ∧
    NoDup ((field "id" <$> records)
           ++ (identifier <$> (records ≫= entries))) ∧
    ∀ v, v ∈ identifier <$> (records ≫= entries) →
         ∃ n, guids w ≤ n < guids w' ∧ v = VStr (guid_src n).
Proof.
  intros Hinj Hlack.
  destruct (normalizeAll_identifiers calls w)
    as (records & w' & Hrun & Hguids & Hids & Heids).
  exists records, w'. split; [done|]. rewrite Hids, (Heids Hlack).
  pose proof (slots_are_a_range (guids w) calls) as Hrange. split.
  - rewrite <- fmap_app. apply NoDup_fmap_2.
    + intros x y Hxy. apply Hinj. by injection Hxy.
    + rewrite Hrange. apply NoDup_seq.
  - intros v (n & -> & Hn)%list_elem_of_fmap. exists n. split; [|done].
    assert (n ∈ seq (guids w) (drawn calls)) as Hin.
    { rewrite <- Hrange. apply elem_of_app. by right. }
    apply elem_of_seq in Hin. lia.
Qed.

End normaliser.

Lemma entries_lack_ids (calls : list invocation) :
  forallb (λ c, forallb lacks_id (items (inv_playlist c))) calls = true →
  Forall (λ c, Forall lacks_id (items (inv_playlist c))) calls.
Proof.
  intros Hall%Forall_by_forallb. eapply Forall_impl; [exact Hall|].
  intros c Hc. by apply Forall_by_forallb, Is_true_true.
Qed.

Lemma sample_guid_inj : Inj (=) (=) Sample.guid_src.
Proof.
  intros x y Hxy. unfold Sample.guid_src in Hxy. simpl in Hxy.
  injection Hxy as Hxy. by apply pretty_nat_inj in Hxy.
Qed.

Lemma fresh_identifiers_distinct_witness :
  ∃ records w',
    normalizeAll Sample.guid_src Sample.clock Sample.toISOString
      Sample.imports (Sample.world_of []) = Ok records w' ∧
    NoDup ((field "id" <$> records)
           ++ (identifier <$> (records ≫= entries))) ∧
    ∀ v, v ∈ identifier <$> (records ≫= entries) →
         ∃ n, guids (Sample.world_of []) ≤ n < guids w' ∧
              v = VStr (Sample.guid_src n).
Proof.
  apply (fresh_identifiers_distinct Sample.guid_src Sample.clock
           Sample.toISOString Sample.imports (Sample.world_of [])).
  - exact sample_guid_inj.
  - apply entries_lack_ids. vm_compute. reflexivity.
Defined.

(** C5 as stated fails: with a generator that never repeats, one
    invocation on a parsed playlist whose two entries both carry the
    identifier ["a"] produces two entries that share it. *)
Lemma carried_identifiers_collide :
  Inj (=) (=) Sample.guid_src ∧
  ∃ records w',
    normalizeAll Sample.guid_src Sample.clock Sample.toISOString
      [Invocation (VStr "twins") Sample.twins VUndefined (Some FILE)]
      (Sample.world_of []) = Ok records w' ∧
    identifier <$> (records ≫= entries) = [VStr "a"; VStr "a"] ∧
    ¬ NoDup (identifier <$> (records ≫= entries)).
Proof.
  split; [exact sample_guid_inj|].
  destruct (createPlaylistObject_result Sample.guid_src Sample.clock
              Sample.toISOString (VStr "twins") Sample.twins VUndefined
              (Some FILE) (Sample.world_of []))
    as (record & Hrun & _ & Hentries).
  assert (identifier <$> ([record] ≫= entries) = [VStr "a"; VStr "a"])
    as Hids.
  { rewrite bind_cons, Hentries. vm_compute. reflexivity. }
  eexists [record], _. split; [|split; [exact Hids|]].
  - unfold normalizeAll. rewrite mapM_M_cons. cbn [inv_name inv_playlist
      inv_urlOrPath inv_uploadType]. rewrite Hrun. reflexivity.
  - rewrite Hids. intros Hnd.
    apply NoDup_cons in Hnd as [Hin _]. apply Hin. left.
Qed.

(** ** The command handler *)

Lemma split_nonempty (c : Ascii.ascii) (s : string) : split c s ≠ [].
Proof.
  destruct s as [|a s]; [done|]. cbn [split].
  destruct (decide (a = c)); [done|]. by destruct (split c s).
Qed.

Lemma join_split (s : string) : join newline (split LF s) = s.
Proof.
  induction s as [|a s IH]; [done|]. cbn [split].
  pose proof (split_nonempty LF s) as Hne.
  destruct (split LF s) as [|h t] eqn:E; [done|].
  destruct (decide (a = LF)) as [->|Ha].
  - change (join newline ("" :: h :: t))
      with (String LF (join newline (h :: t))). by rewrite IH.
  - destruct t as [|h' t].
    + simpl in *. by rewrite IH.
    + change (join newline (String a h :: h' :: t))
        with (String a (join newline (h :: h' :: t))). by rewrite IH.
Qed.

Lemma array_join_strings (sep : string) (l : list string) :
  array_join sep (VStr <$> l) = join sep l.
Proof.
  unfold array_join. f_equal. rewrite <- list_fmap_compose.
  by rewrite <- (list_fmap_id l) at 2.
Qed.

(** ** The record written by a refresh *)

Ltac listed := repeat constructor.

(** The properties the refresh writes. *)
Lemma refreshedRecord_written (UPDATED cur : value) (fresh : ParsedPlaylist)
    (now : Z) :
  refreshedRecord UPDATED cur fresh now !! "updateState" = Some UPDATED ∧
  refreshedRecord UPDATED cur fresh now !! "updateDate" = Some (VNum now) ∧
  refreshedRecord UPDATED cur fresh now !! "count"
    = Some (VNum (Z.of_nat (length (items fresh)))) ∧
  refreshedRecord UPDATED cur fresh now !! "items"
    = Some (VArr (items fresh)) ∧
  refreshedRecord UPDATED cur fresh now !! "header" = Some (header fresh).
Proof.
  unfold refreshedRecord, extend. repeat split.
  - apply lookup_insert_eq.
  - rewrite lookup_insert_ne by done. apply lookup_insert_eq.
  - rewrite !lookup_insert_ne by done. apply lookup_insert_eq.
  - rewrite !lookup_insert_ne by done. by apply lookup_union_Some_l.
  - rewrite !lookup_insert_ne by done. by apply lookup_union_Some_l.
Qed.

(** Every other property is the one of the current record. *)
Lemma refreshedRecord_kept (UPDATED : value) (cur : obj)
    (fresh : ParsedPlaylist) (now : Z) (k : string) :
  k ∉ ["updateState"; "updateDate"; "count"; "header"; "items"] →
  refreshedRecord UPDATED (VObj cur) fresh now !! k = cur !! k.
Proof.
  intros Hk. unfold refreshedRecord, extend.
  rewrite !lookup_insert_ne by (intros <-; apply Hk; listed).
  rewrite lookup_union. unfold spread_parsed.
  rewrite lookup_insert_ne, lookup_singleton_ne
    by (intros <-; apply Hk; listed).
  cbn [spread].
  rewrite (left_id_L None _), lookup_union, lookup_empty.
  by rewrite (right_id_L None _).
Qed.

Lemma not_written (k : string) :
  bool_decide
    (k ∉ ["updateState"; "updateDate"; "count"; "header"; "items"]) = true →
  k ∉ ["updateState"; "updateDate"; "count"; "header"; "items"].
Proof. apply bool_decide_eq_true_1. Qed.

Lemma refreshedRecord_key (UPDATED : value) (keyPath : string) (cur : obj)
    (fresh : ParsedPlaylist) (now : Z) :
  identity_field keyPath →
  field keyPath (refreshedRecord UPDATED (VObj cur) fresh now)
  = field keyPath cur.
Proof.
  intros Hkey. unfold field. rewrite refreshedRecord_kept; [done|].
  destruct Hkey as [-> | ->]; by apply not_written.
Qed.

(** The nested parsed playlist, which holds the entries, is not among
    the properties the refresh writes. *)
Lemma refresh_keeps_nested_playlist (UPDATED : value) (cur : obj)
    (fresh : ParsedPlaylist) (now : Z) :
  entries (refreshedRecord UPDATED (VObj cur) fresh now) = entries cur.
Proof.
  unfold entries, field. rewrite refreshedRecord_kept; [done|].
  by apply not_written.
Qed.

Section handler.
Context (guid_src : nat → string) (clock : nat → Z) (toISOString : Z → string).
Context (parse : string → ParsedPlaylist) (http : string → http_result).
Context (corsProxyUrl keyPath : string) (UPDATED : value).

Local Abbreviation sendIpcEvent :=
  (sendIpcEvent guid_src clock toISOString parse http corsProxyUrl keyPath
     UPDATED).
Local Abbreviation update := (update keyPath).
Local Abbreviation key_of := (key_of keyPath).
Local Abbreviation keyed := (keyed keyPath).
Local Abbreviation refreshedRecord := (refreshedRecord UPDATED).
Local Abbreviation convertFileStringToPlaylist :=
  (convertFileStringToPlaylist parse).

(** The text of a response is parsed as it is. *)
Lemma convertFileStringToPlaylist_text (body : string) :
  convertFileStringToPlaylist (VStr body) = Some (parse body).
Proof.
  unfold convertFileStringToPlaylist, parsePlaylist. simpl.
  by rewrite array_join_strings, join_split.
Qed.

Lemma update_puts (record : obj) (k : string) (w : world) :
  field keyPath record = VStr k →
  update record w
  = Ok (stored (World (<[k:=record]> (db w)) (posted w) (requests w)
                      (guids w) (ticks w)))
       (World (<[k:=record]> (db w)) (posted w) (requests w)
              (guids w) (ticks w)).
Proof. intros Hk. unfold update, key_of. rewrite Hk. reflexivity. Qed.

(** C8. When the fetch of a refresh request fails, the handler posts the
    error message, hands the error on, and does nothing else: the URL
    has been requested once, and the store is as it was. *)
Theorem refresh_transport_failure (payload url error : value) (w : world) :
  prop "url" payload = Some url →
  http (corsProxyUrl +:+ to_string url) = HttpError error →
  ∃ w',
    sendIpcEvent PLAYLIST_UPDATE payload w
      = Fault (HttpErrorResponse error) w' ∧
    posted w' = posted w ++ [Message ERROR ∅] ∧
    requests w' = requests w ++ [corsProxyUrl +:+ to_string url] ∧
    db w' = db w ∧
    guids w' = guids w ∧ ticks w' = ticks w.
Proof.
  intros Hurl Hfail. eexists. split.
  - unfold sendIpcEvent. rewrite Hurl.
    unfold liftE, mbind, M_bind, bind, ret, http_get. rewrite Hfail.
    reflexivity.
  - done.
Qed.

(** *** Refresh *)

(** A successful refresh of a stored playlist: the record is read, the
    record built from it and the parsed response is put in its place,
    and the collection is posted. *)
Lemma refresh_runs (po cur : obj) (id body : string) (w : world) :
  http (corsProxyUrl +:+ to_string (field "url" po)) = HttpOk (VStr body) →
  field "id" po = VStr id →
  db w !! id = Some cur →
  field keyPath cur = VStr id →
  identity_field keyPath →
  ∃ w',
    sendIpcEvent PLAYLIST_UPDATE (VObj po) w = Ok () w' ∧
    db w' = <[id := refreshedRecord (VObj cur) (parse body)
                      (clock (ticks w))]> (db w) ∧
    posted w'
      = posted w
        ++ [Message PLAYLIST_GET_ALL_RESPONSE
              {[ "payload" := VArr (VObj <$> stored w') ]}] ∧
    requests w'
      = requests w ++ [corsProxyUrl +:+ to_string (field "url" po)].
Proof.
  intros Hok Hid Hcur Hkey Hfield.
  pose proof (update_puts
    (refreshedRecord (VObj cur) (parse body) (clock (ticks w))) id) as Hput.
  eexists. split.
  - unfold sendIpcEvent. cbn [prop liftE].
    unfold mbind, M_bind, bind, ret, http_get. rewrite Hok.
    rewrite convertFileStringToPlaylist_text. cbn [liftE]. unfold ret.
    rewrite Hid. cbn [getByID db]. rewrite Hcur. cbn [from_option Date_now].
    rewrite Hput by (by rewrite refreshedRecord_key). reflexivity.
  - done.
Qed.

(** C2. A successful refresh leaves the identity fields, the title, the
    favorites, the auto-refresh flag, the creation time stamp and the
    origin fields of the stored record as they were, whatever the
    entries of the fresh body are. *)
Theorem refresh_preserves_identity (po cur : obj) (id body : string)
    (w : world) :
  http (corsProxyUrl +:+ to_string (field "url" po)) = HttpOk (VStr body) →
  field "id" po = VStr id →
  db w !! id = Some cur →
  field keyPath cur = VStr id →
  identity_field keyPath →
  ∃ record w',
    sendIpcEvent PLAYLIST_UPDATE (VObj po) w = Ok () w' ∧
    db w' !! id = Some record ∧
    Forall (λ k, record !! k = cur !! k)
      ["id"; "_id"; "title"; "favorites"; "autoRefresh"; "importDate";
       "url"; "filePath"].
Proof.
  intros Hok Hid Hcur Hkey Hfield.
  destruct (refresh_runs po cur id body w) as (w' & Hrun & Hdb & _); try done.
  eexists _, w'. split; [done|]. split.
  - rewrite Hdb. apply lookup_insert_eq.
  - repeat constructor; apply refreshedRecord_kept; by apply not_written.
Qed.

(** *** Favorites *)

(** C10. An update of the favorites of a stored playlist replaces the
    favorites of its record by the value supplied and leaves every other
    property of the record, and every other record, as it was. *)
Theorem favorites_update_frame (po cur : obj) (id : string) (w : world) :
  field "id" po = VStr id →
  db w !! id = Some cur →
  field keyPath cur = VStr id →
  identity_field keyPath →
  ∃ record w',
    sendIpcEvent PLAYLIST_UPDATE_FAVORITES (VObj po) w = Ok () w' ∧
    db w' !! id = Some record ∧
    record !! "favorites" = Some (field "favorites" po) ∧
    (∀ k, k ≠ "favorites" → record !! k = cur !! k) ∧
    (∀ k, k ≠ id → db w' !! k = db w !! k) ∧
    posted w' = posted w.
Proof.
  intros Hid Hcur Hkey Hfield.
  assert (∀ k, k ≠ "favorites" →
    (<["favorites" := field "favorites" po]> (extend ∅ (spread (VObj cur))))
      !! k = cur !! k) as Hkept.
  { intros k Hk. rewrite lookup_insert_ne by done. unfold extend.
    cbn [spread]. by rewrite (right_id_L ∅ _). }
  pose proof (update_puts
    (<["favorites" := field "favorites" po]> (extend ∅ (spread (VObj cur))))
    id) as Hput.
  eexists _, _. split; [|split; [|split; [|split; [|split]]]].
  - unfold sendIpcEvent. cbn [prop liftE].
    unfold mbind, M_bind, bind, ret. rewrite Hid. cbn [getByID].
    rewrite Hcur. cbn [from_option]. rewrite Hput; [reflexivity|].
    unfold field. rewrite Hkept; [done|].
    destruct Hfield as [-> | ->]; done.
  - apply lookup_insert_eq.
  - apply lookup_insert_eq.
  - done.
  - intros k Hk. cbn [db]. by rewrite lookup_insert_ne.
  - done.
Qed.

(** *** Positions *)

Lemma extend_empty (o : obj) : extend ∅ (spread (VObj o)) = o.
Proof. unfold extend. cbn [spread]. by rewrite (right_id_L ∅ _). Qed.

Lemma keyed_insert (d : gmap string obj) (k : string) (r : obj) :
  keyed d → field keyPath r = VStr k → keyed (<[k:=r]> d).
Proof.
  intros Hd Hr. apply map_Forall_insert_2; [|done].
  unfold key_of. by rewrite Hr.
Qed.

Lemma keyed_field (d : gmap string obj) (k : string) (r : obj) :
  keyed d → d !! k = Some r → field keyPath r = VStr k.
Proof.
  intros Hd Hr. specialize (Hd k r Hr). unfold key_of in Hd.
  destruct (field keyPath r); by simplify_eq.
Qed.

Lemma position_keeps_key (r : obj) (v : value) :
  identity_field keyPath →
  field keyPath (<["position" := v]> r) = field keyPath r.
Proof.
  intros Hfield. unfold field. rewrite lookup_insert_ne; [done|].
  by destruct Hfield as [-> | ->].
Qed.

Lemma last_occurrence (k : string) (ids : list string) :
  k ∈ ids → ∃ i, ids !! i = Some k ∧ k ∉ drop (S i) ids.
Proof.
  induction ids as [|a l IH]; [by intros ?%elem_of_nil|].
  intros Hin. destruct (decide (k ∈ l)) as [Hl|Hl].
  - destruct (IH Hl) as (i & Hi & Hlast). by exists (S i).
  - apply elem_of_cons in Hin as [->|]; [|done]. by exists 0.
Qed.

(** The requests of a reordering, run from index [n] on over keys that
    are all stored: a key that is absent from the batch keeps its record;
    a key of the batch ends with the index of its last occurrence as the
    position of its record, which is otherwise unchanged. *)
Lemma positionRequests_runs (ids : list string) (n : nat) (w : world) :
  identity_field keyPath →
  keyed (db w) →
  Forall (λ id, is_Some (db w !! id)) ids →
  ∃ d',
    positionRequests keyPath n (VStr <$> ids) w
      = Ok () (World d' (posted w) (requests w) (guids w) (ticks w)) ∧
    keyed d' ∧
    (∀ k, is_Some (db w !! k) → is_Some (d' !! k)) ∧
    (∀ k, k ∉ ids → d' !! k = db w !! k) ∧
    (∀ i id, ids !! i = Some id → id ∉ drop (S i) ids →
       d' !! id
       = <["position" := VNum (Z.of_nat (n + i))]> <$> (db w !! id)).
Proof.
  intros Hfield. revert n w.
  induction ids as [|id ids IH]; intros n w Hkeyed Hall.
  - exists (db w). destruct w. repeat split; try done.
  - apply Forall_cons in Hall as [[r Hr] Hall].
    pose (d1 := <[id := <["position" := VNum (Z.of_nat n)]> r]> (db w)).
    pose (w1 := World d1 (posted w) (requests w) (guids w) (ticks w)).
    assert (field keyPath (<["position" := VNum (Z.of_nat n)]> r) = VStr id)
      as Hkey by (rewrite position_keeps_key by done;
                  by apply (keyed_field (db w))).
    destruct (IH (S n) w1) as (d' & Hrun & Hkeyed' & Hdom & Hother & Hlast).
    { by apply keyed_insert. }
    { eapply Forall_impl; [exact Hall|]. intros k [x Hx]. cbn.
      unfold d1. rewrite lookup_insert. case_decide; eauto. }
    exists d'. split; [|split; [done|split; [|split]]].
    + cbn [fmap list_fmap positionRequests].
      unfold mbind at 1, M_bind, bind. cbn [getByID]. rewrite Hr.
      cbn [from_option]. rewrite extend_empty.
      unfold mbind, M_bind, bind. rewrite (update_puts _ id) by done.
      apply Hrun.
    + intros k Hk. apply Hdom. cbn. unfold d1. rewrite lookup_insert.
      case_decide; eauto.
    + intros k [Hne Hk]%not_elem_of_cons. rewrite (Hother k Hk). cbn.
      unfold d1. by rewrite lookup_insert_ne.
    + intros [|i] id' Hi Hnot.
      * injection Hi as <-. cbn [drop] in Hnot.
        rewrite (Hother id Hnot). cbn. unfold d1.
        rewrite lookup_insert_eq, Hr, Nat.add_0_r. done.
      * rewrite (Hlast i id' Hi Hnot). cbn. unfold d1.
        rewrite lookup_insert. case_decide as Heq.
        -- subst id'. rewrite Hr. cbn. rewrite insert_insert_eq.
           do 3 f_equal. lia.
        -- do 3 f_equal. lia.
Qed.

Lemma mapM_prop_objects (k : string) (batch : list obj) :
  mapM (prop k) (VObj <$> batch) = Some (field k <$> batch).
Proof.
  induction batch as [|o l IH]; [done|].
  cbn [fmap list_fmap mapM]. cbn [prop]. by rewrite IH.
Qed.

Lemma reorder_runs (batch : list obj) (ids : list string) (w : world) :
  field "_id" <$> batch = VStr <$> ids →
  sendIpcEvent PLAYLIST_UPDATE_POSITIONS (VArr (VObj <$> batch)) w
  = positionRequests keyPath 0 (VStr <$> ids) w.
Proof.
  intros Hids. unfold sendIpcEvent.
  cbn [as_array liftE]. unfold mbind at 1, M_bind, bind, ret.
  rewrite mapM_prop_objects, Hids. reflexivity.
Qed.

(** C6. A reordering sets the position of every playlist of the batch to
    the 0-based index of the playlist in the batch (the last one, should
    the batch name it twice), changes nothing else, and applied a second
    time leaves everything as the first application left it. *)
Theorem reorder_sets_positions (batch : list obj) (ids : list string)
    (w : world) :
  identity_field keyPath →
  keyed (db w) →
  field "_id" <$> batch = VStr <$> ids →
  Forall (λ id, is_Some (db w !! id)) ids →
  ∃ w',
    sendIpcEvent PLAYLIST_UPDATE_POSITIONS (VArr (VObj <$> batch)) w
      = Ok () w' ∧
    (∀ i id, ids !! i = Some id → id ∉ drop (S i) ids →
       ∃ r, db w !! id = Some r ∧
            db w' !! id = Some (<["position" := VNum (Z.of_nat i)]> r)) ∧
    (∀ k, k ∉ ids → db w' !! k = db w !! k) ∧
    sendIpcEvent PLAYLIST_UPDATE_POSITIONS (VArr (VObj <$> batch)) w'
      = Ok () w'.
Proof.
  intros Hfield Hkeyed Hids Hall.
  destruct (positionRequests_runs ids 0 w Hfield Hkeyed Hall)
    as (d' & Hrun & Hkeyed' & Hdom & Hother & Hlast).
  pose (w' := World d' (posted w) (requests w) (guids w) (ticks w)).
  assert (Forall (λ id, is_Some (db w' !! id)) ids) as Hall'.
  { eapply Forall_impl; [exact Hall|]. intros k Hk. by apply Hdom. }
  destruct (positionRequests_runs ids 0 w' Hfield Hkeyed' Hall')
    as (d'' & Hrun' & _ & _ & Hother' & Hlast').
  exists w'. split; [by rewrite (reorder_runs batch ids)|].
  split; [|split].
  - intros i id Hi Hnot.
    assert (is_Some (db w !! id)) as [r Hr].
    { apply (proj1 (Forall_forall _ _) Hall). by eapply list_elem_of_lookup_2. }
    exists r. split; [done|]. change (db w') with d'.
    rewrite (Hlast i id Hi Hnot), Hr. done.
  - done.
  - rewrite (reorder_runs batch ids), Hrun' by done. unfold w'.
    do 2 f_equal. apply map_eq. intros k.
    destruct (decide (k ∈ ids)) as [Hin|Hout]; [|by apply Hother'].
    destruct (last_occurrence k ids Hin) as (i & Hi & Hnot).
    rewrite (Hlast' i k Hi Hnot). change (db w') with d'.
    rewrite (Hlast i k Hi Hnot). destruct (db w !! k); [|done].
    cbn. by rewrite insert_insert_eq.
Qed.

End handler.

(** ** Ordering by position *)

Lemma insert_sorted_perm {A} (cmp : A → A → option Z) (x : A) (l : list A) :
  insert_sorted cmp x l ≡ₚ x :: l.
Proof.
  induction l as [|y l IH]; [done|]. cbn [insert_sorted].
  destruct (after cmp x y); [|done]. rewrite IH. apply Permutation_swap.
Qed.

Lemma sort_perm {A} (cmp : A → A → option Z) (l : list A) : sort cmp l ≡ₚ l.
Proof.
  induction l as [|x l IH]; [done|].
  unfold sort in *. cbn [foldr]. by rewrite insert_sorted_perm, IH.
Qed.

Lemma has_position_number (p : obj) :
  has_position p → ∃ n, field "position" p = VNum n ∧ position p = Some n.
Proof.
  unfold has_position, position.
  destruct (field "position" p); try done. eauto.
Qed.

Lemma after_byPosition (a b : obj) (x y : Z) :
  position a = Some x → position b = Some y →
  after byPosition a b = bool_decide (y < x)%Z.
Proof.
  unfold after, byPosition, sub, position. intros -> ->. cbn.
  apply bool_decide_ext. lia.
Qed.

Lemma insert_sorted_ascending (x : obj) (l : list obj) :
  has_position x → Forall has_position l →
  StronglySorted ascending l →
  StronglySorted ascending (insert_sorted byPosition x l).
Proof.
  intros Hx Hl Hsorted. induction Hsorted as [|y l Hsorted IH Hy].
  - repeat constructor.
  - apply Forall_cons in Hl as [Hpy Hl]. cbn [insert_sorted].
    destruct (has_position_number x Hx) as (px & _ & Hpx).
    destruct (has_position_number y Hpy) as (py & _ & Hpy').
    rewrite (after_byPosition x y px py) by done. case_bool_decide as Hlt.
    + constructor; [by apply IH|].
      rewrite insert_sorted_perm. constructor; [|done].
      unfold ascending. rewrite Hpx, Hpy'. lia.
    + constructor; [by constructor|]. constructor.
      * unfold ascending. rewrite Hpx, Hpy'. lia.
      * eapply Forall_impl; [exact Hy|]. intros z. unfold ascending.
        rewrite Hpx, Hpy'. destruct (position z); [lia|done].
Qed.

(** When every record has a number as position, the sort delivers the
    records in ascending order of position. *)
Lemma sort_ascending (l : list obj) :
  Forall has_position l → StronglySorted ascending (sort byPosition l).
Proof.
  induction l as [|x l IH]; intros Hl; [constructor|].
  apply Forall_cons in Hl as [Hx Hl]. unfold sort in *. cbn [foldr].
  apply insert_sorted_ascending; [done| |by apply IH].
  change (Forall has_position (sort byPosition l)). by rewrite sort_perm.
Qed.

Section get_all.
Context (guid_src : nat → string) (clock : nat → Z) (toISOString : Z → string).
Context (parse : string → ParsedPlaylist) (http : string → http_result).
Context (corsProxyUrl keyPath : string) (UPDATED : value).

Local Abbreviation sendIpcEvent :=
  (sendIpcEvent guid_src clock toISOString parse http corsProxyUrl keyPath
     UPDATED).

Lemma get_all_runs (payload : value) (w : world) :
  sendIpcEvent PLAYLIST_GET_ALL payload w
  = Ok () (World (db w)
             (posted w ++ [Message PLAYLIST_GET_ALL_RESPONSE
                {[ "payload" :=
                     VArr (VObj <$> sort byPosition (stored w)) ]}])
             (requests w) (guids w) (ticks w)).
Proof. reflexivity. Qed.

(** C7, as amended. When every stored playlist has a number as position,
    get-all answers with one message that holds the whole collection,
    in ascending order of position, in whatever order the store
    delivers the records. *)
Theorem get_all_sorted (payload : value) (w : world) :
  Forall has_position (stored w) →
  ∃ playlists w',
    sendIpcEvent PLAYLIST_GET_ALL payload w = Ok () w' ∧
    posted w' = posted w ++ [Message PLAYLIST_GET_ALL_RESPONSE
                               {[ "payload" := VArr (VObj <$> playlists) ]}] ∧
    db w' = db w ∧
    playlists ≡ₚ stored w ∧
    StronglySorted ascending playlists.
Proof.
  intros Hpos. eexists _, _. split; [apply get_all_runs|].
  split; [done|]. split; [done|]. split.
  - apply sort_perm.
  - by apply sort_ascending.
Qed.

End get_all.

(** ** The properties on sample data *)

Lemma sample_here (k : string) (r : obj) (l : list (string * obj)) :
  db (Sample.world_of ((k, r) :: l)) !! k = Some r.
Proof. apply lookup_insert_eq. Qed.

Lemma sample_there (k k' : string) (r : obj) (l : list (string * obj)) :
  k ≠ k' →
  db (Sample.world_of ((k', r) :: l)) !! k = db (Sample.world_of l) !! k.
Proof. intros Hne. by apply lookup_insert_ne. Qed.

(** C1. A refresh of the stored playlist P1, whose two entries are A and
    B, with a response of three lines: the record that is stored
    afterwards still has the entries A and B under [playlist.items]; the
    three fresh entries sit in a top-level [items] property, and the
    count is three. *)
Theorem refresh_leaves_entries_stale :
  ∃ record w',
    Sample.handle PLAYLIST_UPDATE
      (VObj (Sample.refresh "p1" "http://tv/list.m3u"))
      (Sample.world_of [("p1", Sample.P1)]) = Ok () w' ∧
    db w' !! "p1" = Some record ∧
    Sample.name_of <$> items (Sample.parse Sample.body)
      = [VStr "News"; VStr "Sport"; VStr "Films"] ∧
    entries record = entries Sample.P1 ∧
    Sample.name_of <$> entries record = [VStr "A"; VStr "B"] ∧
    record !! "items" = Some (VArr (items (Sample.parse Sample.body))) ∧
    record !! "count" = Some (VNum 3) ∧
    record !! "updateState" = Some Sample.UPDATED ∧
    record !! "updateDate" = Some (VNum (Sample.clock 0)).
Proof.
  destruct (refresh_runs Sample.guid_src Sample.clock Sample.toISOString
              Sample.parse Sample.http Sample.corsProxyUrl Sample.keyPath
              Sample.UPDATED (Sample.refresh "p1" "http://tv/list.m3u")
              Sample.P1 "p1" Sample.body (Sample.world_of [("p1", Sample.P1)]))
    as (w' & Hrun & Hdb & _).
  { vm_compute. reflexivity. }
  { vm_compute. reflexivity. }
  { apply sample_here. }
  { vm_compute. reflexivity. }
  { right. reflexivity. }
  exists (refreshedRecord Sample.UPDATED (VObj Sample.P1)
            (Sample.parse Sample.body) (Sample.clock 0)), w'.
  split; [done|]. split; [rewrite Hdb; apply lookup_insert_eq|].
  split; [vm_compute; reflexivity|].
  split; [apply refresh_keeps_nested_playlist|].
  split; [rewrite refresh_keeps_nested_playlist; vm_compute; reflexivity|].
  destruct (refreshedRecord_written Sample.UPDATED (VObj Sample.P1)
              (Sample.parse Sample.body) (Sample.clock 0))
    as (Hstate & Hdate & Hcount & Hitems & _).
  split; [done|]. split; [|done].
  rewrite Hcount. vm_compute. reflexivity.
Qed.

Lemma refresh_preserves_identity_witness :
  ∃ record w',
    Sample.handle PLAYLIST_UPDATE
      (VObj (Sample.refresh "p1" "http://tv/list.m3u"))
      (Sample.world_of [("p1", Sample.P1)]) = Ok () w' ∧
    db w' !! "p1" = Some record ∧
    Forall (λ k, record !! k = Sample.P1 !! k)
      ["id"; "_id"; "title"; "favorites"; "autoRefresh"; "importDate";
       "url"; "filePath"].
Proof.
  apply (refresh_preserves_identity Sample.guid_src Sample.clock
           Sample.toISOString Sample.parse Sample.http Sample.corsProxyUrl
           Sample.keyPath Sample.UPDATED
           (Sample.refresh "p1" "http://tv/list.m3u") Sample.P1 "p1"
           Sample.body (Sample.world_of [("p1", Sample.P1)])).
  - vm_compute. reflexivity.
  - vm_compute. reflexivity.
  - apply sample_here.
  - vm_compute. reflexivity.
  - right. reflexivity.
Defined.

Lemma refresh_transport_failure_witness :
  ∃ w',
    Sample.handle PLAYLIST_UPDATE
      (VObj (Sample.refresh "p1" "http://tv/missing.m3u"))
      (Sample.world_of [("p1", Sample.P1)])
      = Fault (HttpErrorResponse (VObj {[ "status" := VNum 404 ]})) w' ∧
    posted w' = [Message ERROR ∅] ∧
    requests w' = [Sample.corsProxyUrl +:+ "http://tv/missing.m3u"] ∧
    db w' = db (Sample.world_of [("p1", Sample.P1)]) ∧
    guids w' = 0 ∧ ticks w' = 0.
Proof.
  apply (refresh_transport_failure Sample.guid_src Sample.clock
           Sample.toISOString Sample.parse Sample.http Sample.corsProxyUrl
           Sample.keyPath Sample.UPDATED
           (VObj (Sample.refresh "p1" "http://tv/missing.m3u"))
           (VStr "http://tv/missing.m3u")
           (VObj {[ "status" := VNum 404 ]})
           (Sample.world_of [("p1", Sample.P1)])).
  - vm_compute. reflexivity.
  - vm_compute. reflexivity.
Defined.

Lemma favorites_update_frame_witness :
  ∃ record w',
    Sample.handle PLAYLIST_UPDATE_FAVORITES (VObj (Sample.favor "p1" ["b"]))
      (Sample.world_of [("p1", Sample.P1); ("p2", Sample.P2)]) = Ok () w' ∧
    db w' !! "p1" = Some record ∧
    record !! "favorites"
      = Some (field "favorites" (Sample.favor "p1" ["b"])) ∧
    (∀ k, k ≠ "favorites" → record !! k = Sample.P1 !! k) ∧
    (∀ k, k ≠ "p1" →
          db w' !! k
          = db (Sample.world_of [("p1", Sample.P1); ("p2", Sample.P2)])
              !! k) ∧
    posted w' = [].
Proof.
  apply (favorites_update_frame Sample.guid_src Sample.clock
           Sample.toISOString Sample.parse Sample.http Sample.corsProxyUrl
           Sample.keyPath Sample.UPDATED
           (Sample.favor "p1" ["b"]) Sample.P1 "p1"
           (Sample.world_of [("p1", Sample.P1); ("p2", Sample.P2)])).
  - vm_compute. reflexivity.
  - apply sample_here.
  - vm_compute. reflexivity.
  - right. reflexivity.
Defined.

Lemma stored_by_lookup (d : gmap string obj) (ids : list string) :
  forallb (λ id, bool_decide (is_Some (d !! id))) ids = true →
  Forall (λ id, is_Some (d !! id)) ids.
Proof.
  intros Hall%Forall_by_forallb. eapply Forall_impl; [exact Hall|].
  intros id Hid. by apply bool_decide_unpack in Hid.
Qed.

Lemma sample_keyed (d : gmap string obj) :
  bool_decide (keyed Sample.keyPath d) = true → keyed Sample.keyPath d.
Proof. apply bool_decide_eq_true_1. Qed.

Lemma reorder_sets_positions_witness :
  ∃ w',
    Sample.handle PLAYLIST_UPDATE_POSITIONS
      (VArr (VObj <$> [Sample.P3; Sample.P1; Sample.P2]))
      (Sample.world_of [("p1", Sample.P1); ("p2", Sample.P2); ("p3", Sample.P3)]) = Ok () w' ∧
    (∀ i id, ["p3"; "p1"; "p2"] !! i = Some id →
       id ∉ drop (S i) ["p3"; "p1"; "p2"] →
       ∃ r, db (Sample.world_of [("p1", Sample.P1); ("p2", Sample.P2); ("p3", Sample.P3)]) !! id
              = Some r ∧
            db w' !! id = Some (<["position" := VNum (Z.of_nat i)]> r)) ∧
    (∀ k, k ∉ ["p3"; "p1"; "p2"] →
          db w' !! k
          = db (Sample.world_of [("p1", Sample.P1); ("p2", Sample.P2); ("p3", Sample.P3)]) !! k) ∧
    Sample.handle PLAYLIST_UPDATE_POSITIONS
      (VArr (VObj <$> [Sample.P3; Sample.P1; Sample.P2])) w' = Ok () w'.
Proof.
  apply (reorder_sets_positions Sample.guid_src Sample.clock
           Sample.toISOString Sample.parse Sample.http Sample.corsProxyUrl
           Sample.keyPath Sample.UPDATED
           [Sample.P3; Sample.P1; Sample.P2] ["p3"; "p1"; "p2"]
           (Sample.world_of [("p1", Sample.P1); ("p2", Sample.P2); ("p3", Sample.P3)])).
  - right. reflexivity.
  - apply sample_keyed. vm_compute. reflexivity.
  - vm_compute. reflexivity.
  - apply stored_by_lookup. vm_compute. reflexivity.
Defined.

Lemma get_all_sorted_witness :
  ∃ playlists w',
    Sample.handle PLAYLIST_GET_ALL VUndefined (Sample.world_of Sample.positioned)
      = Ok () w' ∧
    posted w' = [] ++ [Message PLAYLIST_GET_ALL_RESPONSE
                         {[ "payload" := VArr (VObj <$> playlists) ]}] ∧
    db w' = db (Sample.world_of Sample.positioned) ∧
    playlists ≡ₚ stored (Sample.world_of Sample.positioned) ∧
    StronglySorted ascending playlists.
Proof.
  apply (get_all_sorted Sample.guid_src Sample.clock Sample.toISOString
           Sample.parse Sample.http Sample.corsProxyUrl Sample.keyPath
           Sample.UPDATED VUndefined (Sample.world_of Sample.positioned)).
  apply Forall_by_forallb. vm_compute. reflexivity.
Defined.

(** C7 as stated fails. The playlists P4 and P1 have been reordered to
    the positions 0 and 1; P2 and P3, imported afterwards, have no
    position. The store delivers the four in the order of their keys,
    every comparison of two neighbours gives [NaN], in either order of
    the two, and get-all answers with the playlist at position 1 before
    the one at position 0. *)
Lemma get_all_unsorted_without_position :
  ∃ playlists w',
    Sample.handle PLAYLIST_GET_ALL VUndefined (Sample.world_of Sample.unplaced)
      = Ok () w' ∧
    posted w'
      = [Message PLAYLIST_GET_ALL_RESPONSE
           {[ "payload" := VArr (VObj <$> playlists) ]}] ∧
    playlists ≡ₚ stored (Sample.world_of Sample.unplaced) ∧
    field "_id" <$> stored (Sample.world_of Sample.unplaced)
      = [VStr "p1"; VStr "p2"; VStr "p3"; VStr "p4"] ∧
    zip_with byPosition (stored (Sample.world_of Sample.unplaced))
             (drop 1 (stored (Sample.world_of Sample.unplaced)))
      = [None; None; None] ∧
    zip_with byPosition (drop 1 (stored (Sample.world_of Sample.unplaced)))
             (stored (Sample.world_of Sample.unplaced))
      = [None; None; None] ∧
    field "_id" <$> playlists = [VStr "p1"; VStr "p2"; VStr "p3"; VStr "p4"] ∧
    position <$> playlists = [Some 1%Z; None; None; Some 0%Z] ∧
    ¬ StronglySorted ascending playlists.
Proof.
  exists (sort byPosition (stored (Sample.world_of Sample.unplaced))).
  eexists. split; [apply get_all_runs|].
  split; [reflexivity|]. split; [apply sort_perm|].
  split; [vm_compute; reflexivity|].
  split; [vm_compute; reflexivity|]. split; [vm_compute; reflexivity|].
  split; [vm_compute; reflexivity|]. split; [vm_compute; reflexivity|].
  apply (bool_decide_eq_false_1 _). vm_compute. reflexivity.
Qed.

(** * Further properties of the service *)

(** ** Parsing a response *)

(** X1. The text of a response reaches the parser unchanged: splitting
    it at the line feeds and joining the lines again gives the text
    back. A response that is not a string raises a [TypeError]. *)
Theorem response_text_parsed_as_is (parse : string → ParsedPlaylist) :
  (∀ s, convertFileStringToPlaylist parse (VStr s) = Some (parse s)) ∧
  (∀ s, parsePlaylist parse (VArr (VStr <$> split LF s)) = Some (parse s)) ∧
  (∀ v, is_string v = false → convertFileStringToPlaylist parse v = None).
Proof.
  split; [|split].
  - apply convertFileStringToPlaylist_text.
  - intros s. unfold parsePlaylist. simpl.
    by rewrite array_join_strings, join_split.
  - intros v Hv. by destruct v.
Qed.

(** ** More on the aggregation *)

Lemma forEach_app {A S} (l1 l2 : list A) (body : S → A → option S) (s : S) :
  forEach (l1 ++ l2) body s = forEach l1 body s ≫= forEach l2 body.
Proof.
  revert s. induction l1 as [|x l1 IH]; intros s; [done|].
  rewrite <- app_comm_cons, !forEach_cons.
  destruct (body s x) as [s'|]; [apply IH | done].
Qed.

(** A loop whose body only appends to what it is given appends to its
    start value what it collects from the empty one. *)
Lemma forEach_appends {A B} (body : list B → A → option (list B))
    (l : list A) (acc : list B) :
  (∀ acc x, body acc x = (acc ++.) <$> body [] x) →
  forEach l body acc = (acc ++.) <$> forEach l body [].
Proof.
  intros Hbody. revert acc. induction l as [|x l IH]; intros acc.
  - simpl. by rewrite app_nil_r.
  - rewrite !forEach_cons, (Hbody acc x).
    destruct (body [] x) as [b|]; [|done]. simpl.
    rewrite (IH (acc ++ b)), (IH b).
    destruct (forEach l body []) as [c|]; [|done]. simpl.
    by rewrite app_assoc.
Qed.

Lemma pushFavorite_appends (p : obj) (acc : list value) (ch : value) :
  pushFavorite p acc ch = (acc ++.) <$> pushFavorite p [] ch.
Proof.
  unfold pushFavorite.
  destruct (prop "id" ch) as [id|]; [|done]. simpl.
  destruct (value_includes (field "favorites" p) id) as [found|]; [|done].
  destruct found; simpl; [done|]. by rewrite app_nil_r.
Qed.

Lemma collectFavorites_appends (acc : list value) (p : obj) :
  collectFavorites acc p = (acc ++.) <$> collectFavorites [] p.
Proof.
  unfold collectFavorites.
  destruct (gt_zero _); [|simpl; by rewrite app_nil_r].
  destruct (prop "items" (field "playlist" p) ≫= as_array) as [chs|];
    [|done].
  simpl. apply forEach_appends. apply pushFavorite_appends.
Qed.

(** X2. The aggregation is additive on records whose favorites are
    arrays or missing, whatever their entries look like: the favorites
    of two collections put one after the other are the favorites of the
    first followed by those of the second, and it fails when one of the
    two fails. *)
Theorem aggregate_additive (l1 l2 : list obj) :
  Forall favorites_listed (l1 ++ l2) →
  aggregateFavoriteChannels (l1 ++ l2)
  = a ← aggregateFavoriteChannels l1;
    b ← aggregateFavoriteChannels l2;
    Some (a ++ b).
Proof.
  intros _. unfold aggregateFavoriteChannels. rewrite forEach_app.
  destruct (forEach l1 collectFavorites []) as [a|]; [|done]. simpl.
  rewrite (forEach_appends collectFavorites l2 a)
    by (intros; apply collectFavorites_appends).
  by destruct (forEach l2 collectFavorites []).
Qed.

Lemma aggregate_additive_witness :
  aggregateFavoriteChannels ([Sample.P1; Sample.P4] ++ [Sample.P2])
  = a ← aggregateFavoriteChannels [Sample.P1; Sample.P4];
    b ← aggregateFavoriteChannels [Sample.P2];
    Some (a ++ b).
Proof.
  apply (aggregate_additive [Sample.P1; Sample.P4] [Sample.P2]).
  apply Forall_by_forallb. vm_compute. reflexivity.
Defined.

Lemma pushFavorite_sublist (p : obj) (acc acc' : list value) (ch : value) :
  pushFavorite p acc ch = Some acc' → acc' = acc ++ [ch] ∨ acc' = acc.
Proof.
  unfold pushFavorite.
  destruct (prop "id" ch) as [id|]; [|done]. simpl.
  destruct (value_includes (field "favorites" p) id) as [found|]; [|done].
  destruct found; intros [= <-]; auto.
Qed.

Lemma inner_forEach_sublist (p : obj) (chs acc acc' : list value) :
  forEach chs (pushFavorite p) acc = Some acc' →
  ∃ sel, acc' = acc ++ sel ∧ sel `sublist_of` chs.
Proof.
  revert acc. induction chs as [|ch chs IH]; intros acc.
  - intros [= <-]. exists []. by rewrite app_nil_r.
  - rewrite forEach_cons.
    destruct (pushFavorite p acc ch) as [acc1|] eqn:Hpush; [|done]. simpl.
    intros (sel & -> & Hsel)%IH.
    apply pushFavorite_sublist in Hpush as [-> | ->].
    + exists (ch :: sel). rewrite <- app_assoc. split; [done|].
      by constructor.
    + exists sel. split; [done|]. by constructor.
Qed.

Lemma collectFavorites_sublist (p : obj) (acc acc' : list value) :
  collectFavorites acc p = Some acc' →
  ∃ sel, acc' = acc ++ sel ∧ sel `sublist_of` entries p.
Proof.
  unfold collectFavorites. destruct (gt_zero _).
  - destruct (prop "items" (field "playlist" p) ≫= as_array) as [chs|] eqn:E;
      [|done].
    simpl. intros (sel & -> & Hsel)%inner_forEach_sublist.
    exists sel. split; [done|].
    assert (entries p = chs) as ->; [|done].
    unfold entries.
    destruct (field "playlist" p) as [| | | |s|l|pl]; simpl in E;
      try done.
    destruct (field "items" pl); simpl in E; by simplify_eq.
  - intros [= <-]. exists []. rewrite app_nil_r. split; [done|].
    apply sublist_nil_l.
Qed.

(** X3. On records whose favorites are arrays or missing, whatever
    their entries and identifiers look like, when the aggregation
    succeeds its result is a subsequence of the entries of the
    playlists taken in order: an entry is never invented, reordered or
    taken twice, however often the favorites name its identifier. *)
Theorem aggregate_is_subsequence (playlists : list obj)
    (channels : list value) :
  Forall favorites_listed playlists →
  aggregateFavoriteChannels playlists = Some channels →
  channels `sublist_of` (playlists ≫= entries).
Proof.
  intros _. unfold aggregateFavoriteChannels.
  assert (∀ acc acc', forEach playlists collectFavorites acc = Some acc' →
            ∃ sel, acc' = acc ++ sel ∧
                   sel `sublist_of` (playlists ≫= entries)) as Hgen.
  { induction playlists as [|p l IH]; intros acc acc'.
    - intros [= <-]. exists []. by rewrite app_nil_r.
    - rewrite forEach_cons.
      destruct (collectFavorites acc p) as [acc1|] eqn:Hp; [|done]. simpl.
      intros (sel & -> & Hsel)%IH.
      apply collectFavorites_sublist in Hp as (sel1 & -> & Hsel1).
      exists (sel1 ++ sel). rewrite <- app_assoc. split; [done|].
      by apply sublist_app. }
  intros (sel & -> & Hsel)%Hgen. done.
Qed.

Lemma aggregate_is_subsequence_witness :
  [Sample.entry "a" "A"; Sample.entry "c" "C"]
    `sublist_of` ([Sample.P1; Sample.P4; Sample.P2] ≫= entries).
Proof.
  apply (aggregate_is_subsequence [Sample.P1; Sample.P4; Sample.P2]).
  - apply Forall_by_forallb. vm_compute. reflexivity.
  - vm_compute. reflexivity.
Defined.

(** ** Records without favorites *)

Lemma forEach_fails {A S} (l : list A) (body : S → A → option S) (x : A)
    (s : S) :
  x ∈ l → (∀ s, body s x = None) → forEach l body s = None.
Proof.
  intros Hx Hfail. revert s. induction l as [|y l IH]; intros s.
  - by apply elem_of_nil in Hx.
  - rewrite forEach_cons. apply elem_of_cons in Hx as [<-|Hx].
    + by rewrite Hfail.
    + destruct (body s y); [by apply IH | done].
Qed.

(** X4. A stored record without favorites is passed over by the
    aggregation, but makes the counter raise a [TypeError], wherever in
    the collection it stands: [getGlobalFavoritesCount] reads
    [favorites.length] where the aggregation reads
    [favorites?.length]. *)
Theorem counter_needs_favorites (w : world) (p : obj) :
  p ∈ stored w →
  field "favorites" p = VUndefined →
  getGlobalFavoritesCount w = Fault TypeError w ∧
  ∀ acc, collectFavorites acc p = Some acc.
Proof.
  intros Hp Hnone. split.
  - unfold getGlobalFavoritesCount.
    change (getAll ≫= λ playlists, liftE (favoritesCount playlists))
      with (bind getAll (λ playlists, liftE (favoritesCount playlists))).
    unfold bind. rewrite getAll_stored. unfold favoritesCount.
    rewrite (forEach_fails (stored w) addFavorites p); [done..|].
    intros count. unfold addFavorites. by rewrite Hnone.
  - intros acc. apply collectFavorites_skip. by left.
Qed.

Lemma counter_needs_favorites_witness :
  getGlobalFavoritesCount
    (Sample.world_of [("p1", Sample.P1); ("p4", Sample.P4)])
    = Fault TypeError
        (Sample.world_of [("p1", Sample.P1); ("p4", Sample.P4)]) ∧
  ∀ acc, collectFavorites acc Sample.P4 = Some acc.
Proof.
  apply (counter_needs_favorites
           (Sample.world_of [("p1", Sample.P1); ("p4", Sample.P4)])
           Sample.P4).
  - apply stored_elem. exists "p4". rewrite sample_there by done.
    apply sample_here.
  - vm_compute. reflexivity.
Defined.

(** ** Reading and removing playlists *)

Lemma same_as_string (v : value) (s : string) :
  same_value_zero v (VStr s) = true ↔ v = VStr s.
Proof.
  destruct v; simpl; try (split; [done | intros [=]]).
  rewrite bool_decide_eq_true. split; [by intros -> | by intros [= ->]].
Qed.

Lemma head_filter_none (index k : string) (l : list obj) :
  (∀ r, r ∈ l → field index r ≠ VStr k) →
  head (filter (λ r : obj, same_value_zero (field index r) (VStr k)) l)
  = None.
Proof.
  intros Hnone. induction l as [|r l IH]; [done|].
  rewrite filter_cons_False.
  - apply IH. intros r' Hr'. apply Hnone. by right.
  - intros Hr%Is_true_true%same_as_string. by apply (Hnone r); [left|].
Qed.

Lemma head_filter_unique (index k : string) (l : list obj) (r : obj) :
  r ∈ l → field index r = VStr k →
  (∀ r', r' ∈ l → field index r' = VStr k → r' = r) →
  head (filter (λ r : obj, same_value_zero (field index r) (VStr k)) l)
  = Some r.
Proof.
  intros Hr Hk Huniq. induction l as [|r' l IH]; [by apply elem_of_nil in Hr|].
  destruct (same_value_zero (field index r') (VStr k)) eqn:Hr'.
  - rewrite filter_cons_True by (by apply Is_true_true).
    apply same_as_string in Hr'. simpl. f_equal. apply Huniq; [left|done].
  - rewrite filter_cons_False by (intros H%Is_true_true; congruence).
    apply elem_of_cons in Hr as [->|Hr].
    + apply same_as_string in Hk. congruence.
    + apply IH; [done|]. intros r'' Hr''. apply Huniq. by right.
Qed.

Section reading.
Context (guid_src : nat → string) (clock : nat → Z) (toISOString : Z → string).
Context (parse : string → ParsedPlaylist) (http : string → http_result).
Context (corsProxyUrl keyPath : string) (UPDATED : value).

Local Abbreviation handle :=
  (sendIpcEvent guid_src clock toISOString parse http corsProxyUrl keyPath
     UPDATED).

Lemma get_by_id_runs (payload : value) (id : string) (w : world) :
  prop "id" payload = Some (VStr id) →
  id ≠ GLOBAL_FAVORITES_PLAYLIST_ID →
  handle PLAYLIST_GET_BY_ID payload w
  = Ok () (World (db w)
             (posted w ++ [Message PLAYLIST_PARSE_RESPONSE
                {[ "payload" :=
                     from_option VObj VUndefined
                       (head (filter (λ r : obj,
                                same_value_zero (field "_id" r) (VStr id))
                                (stored w))) ]}])
             (requests w) (guids w) (ticks w)).
Proof.
  intros Hid Hne. unfold sendIpcEvent. rewrite Hid.
  unfold liftE, mbind at 1, M_bind, bind, ret.
  cbn [same_value_zero]. rewrite bool_decide_eq_false_2 by done.
  reflexivity.
Qed.

(** X5. A get-by-id request for the reserved identifier is answered from
    the aggregation and not from the store: on records of the playlist
    shape the answer is one message with the favorites playlist over the
    whole collection, and nothing else changes. *)
Theorem global_favorites_request (payload : value) (w : world) :
  prop "id" payload = Some (VStr GLOBAL_FAVORITES_PLAYLIST_ID) →
  Forall is_Playlist (stored w) →
  ∃ w',
    handle PLAYLIST_GET_BY_ID payload w = Ok () w' ∧
    posted w'
      = posted w
        ++ [Message PLAYLIST_PARSE_RESPONSE
              {[ "payload" :=
                   VObj (createFavoritesPlaylist (stored w ≫= selected)) ]}] ∧
    createFavoritesPlaylist (stored w ≫= selected) !! "_id"
      = Some (VStr GLOBAL_FAVORITES_PLAYLIST_ID) ∧
    db w' = db w ∧ requests w' = requests w.
Proof.
  intros Hid Hshape. eexists. split.
  - unfold sendIpcEvent. rewrite Hid.
    unfold liftE, mbind at 1, M_bind, bind, ret. cbn [same_value_zero].
    rewrite bool_decide_eq_true_2 by done.
    unfold sendPlaylistWithGlobalFavorites, mbind, M_bind, bind.
    rewrite getAll_stored, (aggregate_selected _ Hshape). reflexivity.
  - done.
Qed.

(** X6. A get-by-id request for any other identifier is answered with
    the stored record whose [_id] is the identifier, when there is
    exactly one, and with an undefined payload when there is none; the
    store is not changed. *)
Theorem get_by_id_answer (payload : value) (id : string) (w : world) :
  prop "id" payload = Some (VStr id) →
  id ≠ GLOBAL_FAVORITES_PLAYLIST_ID →
  ∃ answer w',
    handle PLAYLIST_GET_BY_ID payload w = Ok () w' ∧
    posted w'
      = posted w
        ++ [Message PLAYLIST_PARSE_RESPONSE {[ "payload" := answer ]}] ∧
    db w' = db w ∧
    ((∀ r, r ∈ stored w → field "_id" r ≠ VStr id) → answer = VUndefined) ∧
    (∀ r, r ∈ stored w → field "_id" r = VStr id →
          (∀ r', r' ∈ stored w → field "_id" r' = VStr id → r' = r) →
          answer = VObj r).
Proof.
  intros Hid Hne. eexists _, _.
  split; [by apply get_by_id_runs|]. split; [done|]. split; [done|]. split.
  - intros Hnone. by rewrite head_filter_none.
  - intros r Hr Hk Huniq. by rewrite (head_filter_unique _ _ _ r).
Qed.

Lemma remove_by_id_runs (payload : value) (id : string) (w : world) :
  prop "id" payload = Some (VStr id) →
  ∃ w', handle PLAYLIST_REMOVE_BY_ID payload w = Ok () w' ∧
        db w' = delete id (db w).
Proof.
  intros Hid. eexists. split.
  - unfold sendIpcEvent. rewrite Hid. reflexivity.
  - done.
Qed.

(** X7. A remove request deletes the record stored under the identifier
    and no other; it answers with one message holding what is left;
    removing what is not stored leaves the store as it is, so that a
    second removal changes nothing. *)
Theorem remove_by_id (payload : value) (id : string) (w : world) :
  prop "id" payload = Some (VStr id) →
  ∃ w',
    handle PLAYLIST_REMOVE_BY_ID payload w = Ok () w' ∧
    db w' = delete id (db w) ∧
    posted w'
      = posted w
        ++ [Message PLAYLIST_REMOVE_BY_ID_RESPONSE
              {[ "payload" := VArr (VObj <$> stored w') ]}] ∧
    db w' !! id = None ∧
    (∀ k, k ≠ id → db w' !! k = db w !! k) ∧
    (db w !! id = None → db w' = db w) ∧
    ∃ w'', handle PLAYLIST_REMOVE_BY_ID payload w' = Ok () w'' ∧
           db w'' = db w'.
Proof.
  intros Hid.
  assert (∀ w0, handle PLAYLIST_REMOVE_BY_ID payload w0
    = Ok () (World (delete id (db w0))
               (posted w0 ++ [Message PLAYLIST_REMOVE_BY_ID_RESPONSE
                  {[ "payload" :=
                       VArr (VObj <$> by_key (delete id (db w0))) ]}])
               (requests w0) (guids w0) (ticks w0))) as Hrun.
  { intros w0. unfold sendIpcEvent. rewrite Hid. reflexivity. }
  eexists. split; [apply Hrun|]. split; [done|]. split; [done|].
  split; [apply lookup_delete_eq|].
  split; [intros k Hk; by apply lookup_delete_ne|].
  split; [apply delete_id|].
  eexists. split; [apply Hrun|]. cbn [db]. apply delete_id, lookup_delete_eq.
Qed.

End reading.

(** ** Editing and importing playlists *)

Section writing.
Context (guid_src : nat → string) (clock : nat → Z) (toISOString : Z → string).
Context (parse : string → ParsedPlaylist) (http : string → http_result).
Context (corsProxyUrl keyPath : string) (UPDATED : value).

Local Abbreviation handle :=
  (sendIpcEvent guid_src clock toISOString parse http corsProxyUrl keyPath
     UPDATED).

(** X8. Saving the details of a stored playlist replaces its title by
    the one supplied and keeps every other property of the record, the
    file name included, and every other record; the answer is one
    message with the collection. *)
Theorem save_details_frame (po cur : obj) (id : string) (w : world) :
  field "_id" po = VStr id →
  db w !! id = Some cur →
  field keyPath cur = VStr id →
  identity_field keyPath →
  ∃ record w',
    handle PLAYLIST_SAVE_DETAILS (VObj po) w = Ok () w' ∧
    db w' !! id = Some record ∧
    record !! "title" = Some (field "title" po) ∧
    (∀ k, k ≠ "title" → record !! k = cur !! k) ∧
    (∀ k, k ≠ id → db w' !! k = db w !! k) ∧
    posted w'
      = posted w
        ++ [Message PLAYLIST_GET_ALL_RESPONSE
              {[ "payload" := VArr (VObj <$> stored w') ]}].
Proof.
  intros Hid Hcur Hkey Hfield.
  pose proof (update_puts keyPath
    (<["title" := field "title" po]> cur) id w) as Hput.
  eexists _, _. split; [|split; [|split; [|split; [|split]]]].
  - unfold sendIpcEvent. cbn [prop liftE].
    unfold mbind, M_bind, bind, ret. rewrite Hid. cbn [getByID].
    rewrite Hcur. cbn [from_option]. rewrite extend_empty.
    rewrite Hput; [reflexivity|].
    unfold field. rewrite lookup_insert_ne; [done|].
    by destruct Hfield as [-> | ->].
  - apply lookup_insert_eq.
  - apply lookup_insert_eq.
  - intros k Hk. by rewrite lookup_insert_ne.
  - intros k Hk. cbn [db]. by rewrite lookup_insert_ne.
  - done.
Qed.

(** What the import of a file does. *)
Lemma import_file_runs (po : obj) (lines : list value) (w : world) :
  field "playlist" po = VArr lines →
  db w !! guid_src (guids w) = None →
  identity_field keyPath →
  ∃ record w',
    handle PLAYLIST_PARSE (VObj po) w = Ok () w' ∧
    db w' = <[guid_src (guids w) := record]> (db w) ∧
    posted w'
      = posted w
        ++ [Message PLAYLIST_PARSE_RESPONSE {[ "payload" := VObj record ]}] ∧
    record !! "_id" = Some (VStr (guid_src (guids w))) ∧
    record !! "title" = Some (field "title" po) ∧
    record !! "filePath" = Some (field "path" po) ∧
    record !! "url" = None ∧
    record !! "position" = None ∧
    length (entries record)
      = length (items (parse (array_join newline lines))).
Proof.
  intros Hlines Hfree Hfield.
  pose proof (createPlaylistObject_runs guid_src clock toISOString
    (field "title" po) (parse (array_join newline lines)) (field "path" po)
    (Some FILE) w) as Hrun.
  eexists _, _. split; [|split; [|split]].
  - unfold sendIpcEvent. cbn [prop liftE].
    unfold mbind at 1, M_bind, bind, ret. rewrite Hlines.
    unfold parsePlaylist. cbn [as_array mbind option_bind liftE].
    unfold mbind, M_bind, bind, ret. rewrite Hrun.
    unfold postMessage, add. cbn [db posted requests guids ticks].
    match goal with
    | |- context [key_of keyPath ?r] =>
        assert (key_of keyPath r = Some (guid_src (guids w))) as ->
          by (unfold key_of, field; by destruct Hfield as [-> | ->])
    end.
    cbn [db]. rewrite Hfree. reflexivity.
  - done.
  - done.
  - repeat split; try reflexivity.
    unfold entries, field.
    change (length (normalized guid_src (guids w)
                      (items (parse (array_join newline lines))))
            = length (items (parse (array_join newline lines)))).
    apply length_imap.
Qed.

(** X9. Importing a file: the record built from the parsed lines is
    posted and stored under its fresh identifier, the posted record
    being the stored one; it carries the path as [filePath] and the
    title, has no [url] and no [position], and as many entries as the
    parser found. *)
Theorem import_file (po : obj) (lines : list value) (w : world) :
  field "playlist" po = VArr lines →
  db w !! guid_src (guids w) = None →
  identity_field keyPath →
  ∃ record w',
    handle PLAYLIST_PARSE (VObj po) w = Ok () w' ∧
    db w' = <[guid_src (guids w) := record]> (db w) ∧
    posted w'
      = posted w
        ++ [Message PLAYLIST_PARSE_RESPONSE {[ "payload" := VObj record ]}] ∧
    record !! "_id" = Some (VStr (guid_src (guids w))) ∧
    record !! "title" = Some (field "title" po) ∧
    record !! "filePath" = Some (field "path" po) ∧
    record !! "url" = None ∧
    record !! "position" = None ∧
    length (entries record)
      = length (items (parse (array_join newline lines))).
Proof. apply import_file_runs. Qed.

(** X11. When the fetch of an import by URL fails, the handler posts
    the error message with the fixed text and the status of the error,
    hands the error on, and neither stores nor requests anything
    else. *)
Theorem import_by_url_failure (payload url error status : value)
    (w : world) :
  prop "url" payload = Some url →
  http (corsProxyUrl +:+ to_string url) = HttpError error →
  prop "status" error = Some status →
  ∃ w',
    handle PLAYLIST_PARSE_BY_URL payload w
      = Fault (HttpErrorResponse error) w' ∧
    posted w'
      = posted w
        ++ [Message ERROR
              (list_to_map [("message", VStr "something went wrong");
                            ("status", status)])] ∧
    requests w' = requests w ++ [corsProxyUrl +:+ to_string url] ∧
    db w' = db w.
Proof.
  intros Hurl Hfail Hstatus. eexists. split.
  - unfold sendIpcEvent, fetchFromUrl. rewrite Hurl.
    unfold liftE, mbind, M_bind, bind, ret, http_get. rewrite Hfail, Hstatus.
    reflexivity.
  - done.
Qed.

(** X12. When the fetch of an import by URL succeeds, the response is
    posted and stored as it was delivered, under its own key: no
    identifier is drawn and the clock is not read. *)
Theorem import_by_url_success (payload url : value) (response : obj)
    (k : string) (w : world) :
  prop "url" payload = Some url →
  http (corsProxyUrl +:+ to_string url) = HttpOk (VObj response) →
  field keyPath response = VStr k →
  db w !! k = None →
  ∃ w',
    handle PLAYLIST_PARSE_BY_URL payload w = Ok () w' ∧
    db w' = <[k := response]> (db w) ∧
    posted w'
      = posted w
        ++ [Message PLAYLIST_PARSE_RESPONSE
              {[ "payload" := VObj response ]}] ∧
    requests w' = requests w ++ [corsProxyUrl +:+ to_string url] ∧
    guids w' = guids w ∧ ticks w' = ticks w.
Proof.
  intros Hurl Hok Hkey Hfree. eexists. split.
  - unfold sendIpcEvent, fetchFromUrl. rewrite Hurl.
    unfold liftE, mbind, M_bind, bind, ret, http_get. rewrite Hok.
    unfold postMessage, add, key_of. rewrite Hkey.
    cbn [db]. rewrite Hfree. reflexivity.
  - done.
Qed.

(** X13. Get-all answers with every stored playlist exactly once,
    whatever the positions are and even where they are missing, and
    leaves the store as it is. *)
Theorem get_all_complete (payload : value) (w : world) :
  ∃ playlists w',
    handle PLAYLIST_GET_ALL payload w = Ok () w' ∧
    posted w'
      = posted w
        ++ [Message PLAYLIST_GET_ALL_RESPONSE
              {[ "payload" := VArr (VObj <$> playlists) ]}] ∧
    playlists ≡ₚ stored w ∧
    db w' = db w.
Proof.
  eexists _, _. split; [apply get_all_runs|]. split; [done|].
  split; [apply sort_perm | done].
Qed.

(** X17. A reordering whose batch holds an undefined or null element
    raises a [TypeError] before any record is read: no playlist of the
    batch gets a position, not even those named before the element. *)
Theorem reorder_rejects_malformed_batch (batch : list value) (x : value)
    (w : world) :
  x ∈ batch →
  x = VUndefined ∨ x = VNull →
  handle PLAYLIST_UPDATE_POSITIONS (VArr batch) w = Fault TypeError w.
Proof.
  intros Hx Hnull. unfold sendIpcEvent.
  assert (mapM (prop "_id") batch = None) as Hkeys.
  { induction batch as [|y l IH]; [by apply elem_of_nil in Hx|].
    cbn [mapM]. apply elem_of_cons in Hx as [<-|Hx].
    - by destruct Hnull as [-> | ->].
    - rewrite (IH Hx). by destruct (prop "_id" y). }
  cbn [as_array liftE]. unfold mbind at 1, M_bind, bind, ret.
  rewrite Hkeys. reflexivity.
Qed.

End writing.

(** ** More on the normaliser *)

(** X21. The normaliser keeps the parsed playlist's header and its
    entries in number, order and content: the i-th entry of the record
    has every property of the i-th parsed item, and as [id] the item's
    own if it has one and else the i-th identifier drawn after the
    playlist's. It neither stores nor posts nor requests anything. *)
Theorem normaliser_keeps_entries (guid_src : nat → string) (clock : nat → Z)
    (toISOString : Z → string) (name : value) (playlist : ParsedPlaylist)
    (urlOrPath : value) (uploadType : option upload_type) (w : world) :
  ∃ record nested w',
    createPlaylistObject guid_src clock toISOString name playlist urlOrPath
      uploadType w = Ok record w' ∧
    db w' = db w ∧ posted w' = posted w ∧ requests w' = requests w ∧
    record !! "playlist" = Some (VObj nested) ∧
    nested !! "header" = Some (header playlist) ∧
    length (entries record) = length (items playlist) ∧
    ∀ i item, items playlist !! i = Some item →
      ∃ entry,
        entries record !! i = Some (VObj entry) ∧
        (∀ k, k ≠ "id" → entry !! k = spread item !! k) ∧
        entry !! "id"
          = Some (default (VStr (guid_src (S (guids w) + i)))
                          (spread item !! "id")).
Proof.
  destruct (createPlaylistObject_result guid_src clock toISOString name
              playlist urlOrPath uploadType w)
    as (record & Hrun & _ & Hentries).
  pose proof (createPlaylistObject_runs guid_src clock toISOString name
                playlist urlOrPath uploadType w) as Hrun'.
  rewrite Hrun in Hrun'. injection Hrun' as Hrecord.
  exists record. eexists _, _. split; [exact Hrun|].
  split; [done|]. split; [done|]. split; [done|]. split.
  { rewrite Hrecord. by destruct uploadType as [[]|]. }
  split; [reflexivity|]. split.
  { rewrite Hentries. apply length_imap. }
  intros i item Hitem. rewrite Hentries. unfold normalized.
  rewrite list_lookup_imap, Hitem. eexists. split; [reflexivity|].
  unfold extend. split.
  - intros k Hk. rewrite lookup_union, lookup_singleton_ne by done.
    by rewrite (right_id_L None _).
  - rewrite lookup_union, lookup_singleton_eq.
    by destruct (spread item !! "id").
Qed.

(** ** More on the order of get-all *)






(** ** What the commands leave alone *)

Section respecting.
Context (R : relation world) `{!PreOrder R}.

Lemma respects_ret {A} (a : A) : respects R (mret a).
Proof. intros w. reflexivity. Qed.

Lemma respects_throw {A} (e : error) : respects R (throw (A:=A) e).
Proof. intros w. reflexivity. Qed.

Lemma respects_liftE {A} (x : option A) : respects R (liftE x).
Proof. destruct x; [apply respects_ret | apply respects_throw]. Qed.

Lemma respects_pure {A} (m : M A) :
  (∀ w, world_after (m w) = w) → respects R m.
Proof. intros Hm w. rewrite Hm. reflexivity. Qed.

Lemma respects_bind {A B} (m : M A) (k : A → M B) :
  respects R m → (∀ a, respects R (k a)) → respects R (m ≫= k).
Proof.
  intros Hm Hk w. unfold mbind, M_bind, bind.
  specialize (Hm w). destruct (m w) as [a w1|e w1]; [|done].
  etrans; [exact Hm | apply Hk].
Qed.

Lemma respects_mapM {A B} (f : A → M B) (l : list A) :
  (∀ x, respects R (f x)) → respects R (mapM f l).
Proof.
  intros Hf. induction l as [|x l IH]; [apply respects_ret|].
  cbn [mapM]. apply respects_bind; [apply Hf|]. intros y.
  apply respects_bind; [apply IH|]. intros k. apply respects_ret.
Qed.

Lemma respects_getAll : respects R getAll.
Proof. by apply respects_pure. Qed.

Lemma respects_getByID (key : value) : respects R (getByID key).
Proof. apply respects_pure. intros w. by destruct key. Qed.

Lemma respects_getByIndex (index : string) (key : value) :
  respects R (getByIndex index key).
Proof. apply respects_pure. intros w. by destruct key. Qed.

Context (guid_src : nat → string) (clock : nat → Z) (toISOString : Z → string).
Context (parse : string → ParsedPlaylist) (http : string → http_result).
Context (corsProxyUrl keyPath : string) (UPDATED : value).

Context (Hpost : ∀ t body, respects R (postMessage t body)).
Context (Hhttp : ∀ url, respects R (http_get http url)).
Context (Hguid : respects R (guid guid_src)).
Context (Hclock : respects R (Date_now clock)).
Context (Hadd : ∀ record, respects R (add keyPath record)).
Context (Hupdate : ∀ record, respects R (update keyPath record)).
Context (Hdelete : ∀ key, respects R (delete_ key)).

Ltac respect :=
  repeat first
    [ apply respects_ret | apply respects_throw | apply respects_liftE
    | apply respects_getAll | apply respects_getByID
    | apply respects_getByIndex | apply Hpost | apply Hhttp | apply Hguid
    | apply Hclock | apply Hadd | apply Hupdate | apply Hdelete
    | apply respects_mapM; intros ?
    | apply respects_bind; [|intros ?]
    | match goal with
      | |- respects _ (match ?x with _ => _ end) => destruct x
      end ].

Lemma respects_createPlaylistObject (name : value)
    (playlist : ParsedPlaylist) (urlOrPath : value)
    (uploadType : option upload_type) :
  respects R (createPlaylistObject guid_src clock toISOString name playlist
                urlOrPath uploadType).
Proof. unfold createPlaylistObject, new_Date_toISOString. respect. Qed.

Lemma respects_import_file (payload : value) :
  respects R (sendIpcEvent guid_src clock toISOString parse http
                corsProxyUrl keyPath UPDATED PLAYLIST_PARSE payload).
Proof.
  unfold sendIpcEvent. respect.
Qed.

Lemma respects_get_by_id (payload : value) :
  respects R (sendIpcEvent guid_src clock toISOString parse http
                corsProxyUrl keyPath UPDATED PLAYLIST_GET_BY_ID payload).
Proof.
  unfold sendIpcEvent, sendPlaylistWithGlobalFavorites. respect.
Qed.

Lemma respects_remove (payload : value) :
  respects R (sendIpcEvent guid_src clock toISOString parse http
                corsProxyUrl keyPath UPDATED PLAYLIST_REMOVE_BY_ID payload).
Proof. unfold sendIpcEvent. respect. Qed.

Lemma respects_get_all (payload : value) :
  respects R (sendIpcEvent guid_src clock toISOString parse http
                corsProxyUrl keyPath UPDATED PLAYLIST_GET_ALL payload).
Proof. unfold sendIpcEvent. respect. Qed.

Lemma respects_save_details (payload : value) :
  respects R (sendIpcEvent guid_src clock toISOString parse http
                corsProxyUrl keyPath UPDATED PLAYLIST_SAVE_DETAILS payload).
Proof. unfold sendIpcEvent. respect. Qed.

Lemma respects_update_favorites (payload : value) :
  respects R (sendIpcEvent guid_src clock toISOString parse http
                corsProxyUrl keyPath UPDATED PLAYLIST_UPDATE_FAVORITES
                payload).
Proof. unfold sendIpcEvent. respect. Qed.

Lemma respects_import_by_url (payload : value) :
  respects R (sendIpcEvent guid_src clock toISOString parse http
                corsProxyUrl keyPath UPDATED PLAYLIST_PARSE_BY_URL payload).
Proof. unfold sendIpcEvent, fetchFromUrl. respect. Qed.

Lemma respects_refresh (payload : value) :
  respects R (sendIpcEvent guid_src clock toISOString parse http
                corsProxyUrl keyPath UPDATED PLAYLIST_UPDATE payload).
Proof. unfold sendIpcEvent. respect. Qed.

Lemma respects_positionRequests (index : nat) (keys : list value) :
  respects R (positionRequests keyPath index keys).
Proof.
  revert index. induction keys as [|key keys IH]; intros index.
  - apply respects_ret.
  - cbn [positionRequests]. respect; apply IH.
Qed.

Lemma respects_reorder (payload : value) :
  respects R (sendIpcEvent guid_src clock toISOString parse http
                corsProxyUrl keyPath UPDATED PLAYLIST_UPDATE_POSITIONS
                payload).
Proof. unfold sendIpcEvent. respect; apply respects_positionRequests. Qed.

Lemma respects_other (type : ipc_command) (payload : value) :
  type ∈ [ERROR; PLAYLIST_GET_ALL_RESPONSE; PLAYLIST_PARSE_RESPONSE;
          PLAYLIST_REMOVE_BY_ID_RESPONSE] →
  respects R (sendIpcEvent guid_src clock toISOString parse http
                corsProxyUrl keyPath UPDATED type payload).
Proof.
  intros Htype. apply respects_pure. intros w.
  repeat (apply elem_of_cons in Htype as [->|Htype]; [done|]).
  by apply elem_of_nil in Htype.
Qed.

Lemma respects_without_transport (type : ipc_command) (payload : value) :
  type ∉ [PLAYLIST_UPDATE; PLAYLIST_PARSE_BY_URL] →
  respects R (sendIpcEvent guid_src clock toISOString parse http
                corsProxyUrl keyPath UPDATED type payload).
Proof.
  intros Htype. destruct type.
  - apply respects_other. listed.
  - apply respects_get_all.
  - apply respects_other. listed.
  - apply respects_get_by_id.
  - apply respects_import_file.
  - exfalso. apply Htype. listed.
  - apply respects_other. listed.
  - apply respects_remove.
  - apply respects_other. listed.
  - apply respects_save_details.
  - exfalso. apply Htype. listed.
  - apply respects_update_favorites.
  - apply respects_reorder.
Qed.

Lemma respects_without_import (type : ipc_command) (payload : value) :
  type ≠ PLAYLIST_PARSE →
  respects R (sendIpcEvent guid_src clock toISOString parse http
                corsProxyUrl keyPath UPDATED type payload).
Proof.
  intros Htype. destruct type.
  - apply respects_other. listed.
  - apply respects_get_all.
  - apply respects_other. listed.
  - apply respects_get_by_id.
  - done.
  - apply respects_import_by_url.
  - apply respects_other. listed.
  - apply respects_remove.
  - apply respects_other. listed.
  - apply respects_save_details.
  - apply respects_refresh.
  - apply respects_update_favorites.
  - apply respects_reorder.
Qed.

End respecting.

Lemma only_posts_preorder : PreOrder only_posts.
Proof.
  split.
  - intros w. by repeat split.
  - intros w1 w2 w3 (? & ? & ? & ?) (? & ? & ? & ?).
    repeat split; congruence.
Qed.

Lemma offline_preorder : PreOrder offline.
Proof.
  split; [by intros w|]. unfold offline. intros w1 w2 w3 ??. congruence.
Qed.

Lemma draws_nothing_preorder : PreOrder draws_nothing.
Proof.
  split; [by intros w|]. unfold draws_nothing. intros w1 w2 w3 ??.
  congruence.
Qed.

(** The storage operations change the store at most. *)
Lemma add_changes_store_only (keyPath : string) (record : value) (w : world) :
  ∃ d, world_after (add keyPath record w)
       = World d (posted w) (requests w) (guids w) (ticks w).
Proof.
  unfold add. destruct w as [d ps rs g t].
  destruct record as [| | | | | |o]; try by eexists.
  destruct (key_of keyPath o) as [k|]; [|by eexists]. cbn.
  destruct (d !! k); by eexists.
Qed.

Lemma update_changes_store_only (keyPath : string) (record : obj)
    (w : world) :
  ∃ d, world_after (update keyPath record w)
       = World d (posted w) (requests w) (guids w) (ticks w).
Proof.
  unfold update. destruct w as [d ps rs g t].
  destruct (key_of keyPath record) as [k|]; by eexists.
Qed.

Lemma delete_changes_store_only (key : value) (w : world) :
  ∃ d, world_after (delete_ key w)
       = World d (posted w) (requests w) (guids w) (ticks w).
Proof. destruct w as [d ps rs g t]. destruct key; by eexists. Qed.

Section frames.
Context (guid_src : nat → string) (clock : nat → Z) (toISOString : Z → string).
Context (parse : string → ParsedPlaylist) (http : string → http_result).
Context (corsProxyUrl keyPath : string) (UPDATED : value).

Local Abbreviation handle :=
  (sendIpcEvent guid_src clock toISOString parse http corsProxyUrl keyPath
     UPDATED).

(** X19. Get-all and get-by-id change nothing but the messages: with any
    payload, and also when they fail, the store, the requests, the
    identifiers drawn and the clock readings are as before. *)
Theorem reading_changes_nothing (payload : value) (w : world) :
  only_posts w (world_after (handle PLAYLIST_GET_ALL payload w)) ∧
  only_posts w (world_after (handle PLAYLIST_GET_BY_ID payload w)).
Proof.
  split.
  - apply (respects_get_all _ (PreOrder0 := only_posts_preorder)).
    by intros t body w'.
  - apply (respects_get_by_id _ (PreOrder0 := only_posts_preorder)).
    by intros t body w'.
Qed.

(** X20. No command but the refresh and the import by URL requests a
    URL, and no command but the import of a file draws an identifier,
    whatever the payload. *)
Theorem transport_and_identifiers_untouched (type : ipc_command)
    (payload : value) (w : world) :
  (type ∉ [PLAYLIST_UPDATE; PLAYLIST_PARSE_BY_URL] →
   requests (world_after (handle type payload w)) = requests w) ∧
  (type ≠ PLAYLIST_PARSE →
   guids (world_after (handle type payload w)) = guids w).
Proof.
  split.
  - intros Htype. revert w.
    change (respects offline (handle type payload)).
    apply (respects_without_transport _ (PreOrder0 := offline_preorder));
      [by intros t body w' | by intros w' | by intros w' | | | | done].
    + intros x w'. unfold offline.
      by destruct (add_changes_store_only keyPath x w') as [d ->].
    + intros x w'. unfold offline.
      by destruct (update_changes_store_only keyPath x w') as [d ->].
    + intros x w'. unfold offline.
      by destruct (delete_changes_store_only x w') as [d ->].
  - intros Htype. revert w.
    change (respects draws_nothing (handle type payload)).
    apply (respects_without_import _ (PreOrder0 := draws_nothing_preorder));
      [by intros t body w' | by intros url w' | by intros w' | | | | done].
    + intros x w'. unfold draws_nothing.
      by destruct (add_changes_store_only keyPath x w') as [d ->].
    + intros x w'. unfold draws_nothing.
      by destruct (update_changes_store_only keyPath x w') as [d ->].
    + intros x w'. unfold draws_nothing.
      by destruct (delete_changes_store_only x w') as [d ->].
Qed.

End frames.

(** ** Commands one after the other *)

(** The records of a store whose keys are exactly the given ones, each
    once: a rearrangement of the records looked up key by key. *)
Lemma stored_by_keys (w : world) (ids : list string) :
  NoDup ids →
  (∀ k, is_Some (db w !! k) ↔ k ∈ ids) →
  stored w ≡ₚ (λ id, default ∅ (db w !! id)) <$> ids.
Proof.
  intros Hnd Hdom. unfold stored. rewrite by_key_records.
  assert (map_to_list (db w)
            ≡ₚ (λ id, (id, default ∅ (db w !! id))) <$> ids) as ->.
  { apply NoDup_Permutation.
    - apply NoDup_map_to_list.
    - apply NoDup_fmap_2; [|done]. by intros x y [= ->].
    - intros [k r]. rewrite elem_of_map_to_list, list_elem_of_fmap. split.
      + intros Hk. exists k. rewrite Hk. split; [done|].
        apply Hdom. by eexists.
      + intros (id & [= -> ->] & Hid). apply Hdom in Hid as [r Hr].
        by rewrite Hr. }
  by rewrite <- list_fmap_compose.
Qed.

Lemma numbered_ascending (l : list obj) (a : nat) :
  (∀ i x, l !! i = Some x → position x = Some (Z.of_nat (a + i))) →
  StronglySorted ascending l.
Proof.
  revert a. induction l as [|x l IH]; intros a Hpos; [constructor|].
  constructor.
  - apply (IH (S a)). intros i y Hy.
    rewrite (Hpos (S i) y Hy). do 2 f_equal. lia.
  - apply Forall_forall. intros y [i Hy]%list_elem_of_lookup.
    unfold ascending. rewrite (Hpos 0 x eq_refl), (Hpos (S i) y Hy). lia.
Qed.

(** A collection that is a rearrangement of records numbered 0, 1, 2,
    ... by their positions is sorted into exactly these. *)
Lemma sort_numbered (l numbered : list obj) :
  l ≡ₚ numbered →
  (∀ i x, numbered !! i = Some x →
          field "position" x = VNum (Z.of_nat i)) →
  sort byPosition l = numbered.
Proof.
  intros Hperm Hpos.
  assert (∀ i x, numbered !! i = Some x → position x = Some (Z.of_nat i))
    as Hpos'.
  { intros i x Hx. unfold position. by rewrite (Hpos i x Hx). }
  assert (Forall has_position numbered) as Hall.
  { apply Forall_forall. intros x [i Hx]%list_elem_of_lookup.
    unfold has_position. by rewrite (Hpos i x Hx). }
  apply (StronglySorted_unique_strong ascending).
  - intros x1 x2 Hx1 Hx2 H12 H21.
    rewrite sort_perm, Hperm in Hx1.
    apply list_elem_of_lookup in Hx1 as [i1 Hx1].
    apply list_elem_of_lookup in Hx2 as [i2 Hx2].
    unfold ascending in *.
    rewrite (Hpos' i1 x1 Hx1), (Hpos' i2 x2 Hx2) in *.
    assert (i1 = i2) as -> by lia. congruence.
  - apply sort_ascending. by rewrite Hperm.
  - apply (numbered_ascending numbered 0). exact Hpos'.
  - by rewrite sort_perm.
Qed.

Section sequences.
Context (guid_src : nat → string) (clock : nat → Z) (toISOString : Z → string).
Context (parse : string → ParsedPlaylist) (http : string → http_result).
Context (corsProxyUrl keyPath : string) (UPDATED : value).

Local Abbreviation handle :=
  (sendIpcEvent guid_src clock toISOString parse http corsProxyUrl keyPath
     UPDATED).

(** X10. A file that has been imported is found again: a get-by-id
    request for the identifier of the imported record is answered with
    the record that the import posted and stored, provided no stored
    record carried that identifier before. *)
Theorem imported_file_is_found (po : obj) (lines : list value) (w : world) :
  field "playlist" po = VArr lines →
  db w !! guid_src (guids w) = None →
  identity_field keyPath →
  guid_src (guids w) ≠ GLOBAL_FAVORITES_PLAYLIST_ID →
  (∀ r, r ∈ stored w → field "_id" r ≠ VStr (guid_src (guids w))) →
  ∃ record w1 w2,
    handle PLAYLIST_PARSE (VObj po) w = Ok () w1 ∧
    db w1 !! guid_src (guids w) = Some record ∧
    handle PLAYLIST_GET_BY_ID
      (VObj {[ "id" := VStr (guid_src (guids w)) ]}) w1 = Ok () w2 ∧
    posted w2
      = posted w
        ++ [Message PLAYLIST_PARSE_RESPONSE {[ "payload" := VObj record ]};
            Message PLAYLIST_PARSE_RESPONSE {[ "payload" := VObj record ]}] ∧
    db w2 = db w1.
Proof.
  intros Hlines Hfree Hfield Hreserved Hfresh.
  destruct (import_file_runs guid_src clock toISOString parse http
              corsProxyUrl keyPath UPDATED po lines w Hlines Hfree Hfield)
    as (record & w1 & Hrun & Hdb & Hposted & Hid & _).
  assert (db w1 !! guid_src (guids w) = Some record) as Hstored
    by (rewrite Hdb; apply lookup_insert_eq).
  exists record, w1. eexists. split; [done|]. split; [done|].
  split; [by apply get_by_id_runs|]. split; [|done].
  cbn [posted]. rewrite Hposted, <- app_assoc. do 4 f_equal.
  rewrite (head_filter_unique _ _ _ record); [done| | |].
  - apply stored_elem. by eexists.
  - unfold field. by rewrite Hid.
  - intros r' [k Hk]%stored_elem Hr'. rewrite Hdb in Hk.
    apply lookup_insert_Some in Hk as [[_ <-]|[_ Hk]]; [done|].
    exfalso. apply (Hfresh r'); [|done]. apply stored_elem. by eexists.
Qed.

(** X16. After a reordering that names every stored playlist once,
    get-all answers with the playlists in the order of the batch, at
    the positions 0, 1, 2, ... *)
Theorem reorder_then_get_all (batch : list obj) (ids : list string)
    (payload : value) (w : world) :
  identity_field keyPath →
  keyed keyPath (db w) →
  field "_id" <$> batch = VStr <$> ids →
  NoDup ids →
  (∀ k, is_Some (db w !! k) ↔ k ∈ ids) →
  ∃ playlists w1 w2,
    handle PLAYLIST_UPDATE_POSITIONS (VArr (VObj <$> batch)) w = Ok () w1 ∧
    handle PLAYLIST_GET_ALL payload w1 = Ok () w2 ∧
    posted w2
      = posted w
        ++ [Message PLAYLIST_GET_ALL_RESPONSE
              {[ "payload" := VArr (VObj <$> playlists) ]}] ∧
    field keyPath <$> playlists = VStr <$> ids ∧
    field "position" <$> playlists
      = (λ i, VNum (Z.of_nat i)) <$> seq 0 (length ids).
Proof.
  intros Hfield Hkeyed Hids Hnd Hdom.
  assert (Forall (λ id, is_Some (db w !! id)) ids) as Hall.
  { apply Forall_forall. intros id Hid. by apply Hdom. }
  destruct (positionRequests_runs keyPath ids 0 w Hfield Hkeyed Hall)
    as (d' & Hrun & Hkeyed' & Hsome & Hother & Hlast).
  pose (w1 := World d' (posted w) (requests w) (guids w) (ticks w)).
  pose (numbered := (λ id, default ∅ (d' !! id)) <$> ids).
  assert (∀ i id, ids !! i = Some id →
            ∃ r, db w !! id = Some r ∧
                 d' !! id = Some (<["position" := VNum (Z.of_nat i)]> r))
    as Hrecord.
  { intros i id Hi.
    assert (is_Some (db w !! id)) as [r Hr]
      by (apply Hdom; by eapply list_elem_of_lookup_2).
    exists r. split; [done|]. rewrite (Hlast i id Hi), Hr; [done|].
    intros [j Hj]%list_elem_of_lookup. rewrite lookup_drop in Hj.
    assert (i = S i + j); [|lia]. by eapply NoDup_lookup. }
  assert (stored w1 ≡ₚ numbered) as Hperm.
  { apply (stored_by_keys w1 ids Hnd). intros k. cbn [db w1]. split.
    - intros [r' Hk]. destruct (decide (k ∈ ids)) as [|Hout]; [done|].
      rewrite (Hother k Hout) in Hk. apply Hdom. by eexists.
    - intros Hk. apply Hsome, Hdom, Hk. }
  assert (∀ i x, numbered !! i = Some x →
            ∃ id r, ids !! i = Some id ∧ db w !! id = Some r ∧
                    x = <["position" := VNum (Z.of_nat i)]> r) as Hnumbered.
  { intros i x Hx. unfold numbered in Hx. rewrite list_lookup_fmap in Hx.
    destruct (ids !! i) as [id|] eqn:Hi; [|done].
    destruct (Hrecord i id Hi) as (r & Hr & Hd').
    injection Hx as <-. rewrite Hd'. by exists id, r. }
  exists numbered, w1. eexists.
  split; [by rewrite (reorder_runs _ _ _ _ _ _ _ _ batch ids)|].
  split; [apply get_all_runs|]. split.
  { assert (sort byPosition (stored w1) = numbered) as Hsort.
    { apply sort_numbered; [done|].
      intros i x (id & r & _ & _ & ->)%Hnumbered. unfold field.
      by rewrite lookup_insert_eq. }
    cbn [posted]. rewrite Hsort. reflexivity. }
  split.
  - apply list_eq. intros i. rewrite !list_lookup_fmap.
    destruct (numbered !! i) as [x|] eqn:Hx.
    + destruct (Hnumbered i x Hx) as (id & r & Hi & Hr & ->).
      rewrite Hi. cbn. f_equal.
      rewrite position_keeps_key by done.
      by apply (keyed_field keyPath (db w)).
    + unfold numbered in Hx. rewrite list_lookup_fmap in Hx.
      by destruct (ids !! i).
  - apply list_eq. intros i. rewrite !list_lookup_fmap.
    destruct (numbered !! i) as [x|] eqn:Hx.
    + destruct (Hnumbered i x Hx) as (id & r & Hi & Hr & ->).
      rewrite lookup_seq_lt by (by eapply lookup_lt_Some).
      cbn. unfold field. by rewrite lookup_insert_eq.
    + unfold numbered in Hx. rewrite list_lookup_fmap in Hx.
      destruct (ids !! i) eqn:Hi; [done|].
      apply lookup_ge_None in Hi. by rewrite lookup_seq_ge.
Qed.

End sequences.

(** ** More on refresh, favorites and removal *)

Section more.
Context (guid_src : nat → string) (clock : nat → Z) (toISOString : Z → string).
Context (parse : string → ParsedPlaylist) (http : string → http_result).
Context (corsProxyUrl keyPath : string) (UPDATED : value).

Local Abbreviation handle :=
  (sendIpcEvent guid_src clock toISOString parse http corsProxyUrl keyPath
     UPDATED).

(** What an update of the favorites does. *)
Lemma favorites_update_runs (po cur : obj) (id : string) (w : world) :
  field "id" po = VStr id →
  db w !! id = Some cur →
  field keyPath cur = VStr id →
  identity_field keyPath →
  handle PLAYLIST_UPDATE_FAVORITES (VObj po) w
  = Ok () (World (<[id := <["favorites" := field "favorites" po]> cur]> (db w))
             (posted w) (requests w) (guids w) (ticks w)).
Proof.
  intros Hid Hcur Hkey Hfield.
  pose proof (update_puts keyPath
    (<["favorites" := field "favorites" po]> cur) id w) as Hput.
  unfold sendIpcEvent. cbn [prop liftE].
  unfold mbind, M_bind, bind, ret. rewrite Hid. cbn [getByID].
  rewrite Hcur. cbn [from_option]. rewrite extend_empty.
  rewrite Hput; [reflexivity|].
  unfold field. rewrite lookup_insert_ne; [done|].
  by destruct Hfield as [-> | ->].
Qed.

(** X22. An update of the favorites whose payload has no favorites
    stores the record with undefined favorites; from then on the
    counter raises a [TypeError], while the aggregation passes the
    playlist over. *)
Theorem favorites_update_without_favorites (po cur : obj) (id : string)
    (w : world) :
  field "id" po = VStr id →
  field "favorites" po = VUndefined →
  db w !! id = Some cur →
  field keyPath cur = VStr id →
  identity_field keyPath →
  ∃ record w',
    handle PLAYLIST_UPDATE_FAVORITES (VObj po) w = Ok () w' ∧
    db w' !! id = Some record ∧
    record !! "favorites" = Some VUndefined ∧
    getGlobalFavoritesCount w' = Fault TypeError w' ∧
    ∀ acc, collectFavorites acc record = Some acc.
Proof.
  intros Hid Hnone Hcur Hkey Hfield.
  pose proof (favorites_update_runs po cur id w Hid Hcur Hkey Hfield) as Hrun.
  rewrite Hnone in Hrun.
  exists (<["favorites" := VUndefined]> cur). eexists.
  split; [exact Hrun|]. split; [apply lookup_insert_eq|].
  split; [apply lookup_insert_eq|].
  assert (field "favorites" (<["favorites" := VUndefined]> cur) = VUndefined)
    as Hfav by (unfold field; by rewrite lookup_insert_eq).
  split.
  - unfold getGlobalFavoritesCount.
    change (getAll ≫= λ playlists, liftE (favoritesCount playlists))
      with (bind getAll (λ playlists, liftE (favoritesCount playlists))).
    unfold bind. rewrite getAll_stored. unfold favoritesCount.
    rewrite (forEach_fails _ addFavorites
               (<["favorites" := VUndefined]> cur)); [done| |].
    + apply stored_elem. exists id. apply lookup_insert_eq.
    + intros count. unfold addFavorites. by rewrite Hfav.
  - intros acc. apply collectFavorites_skip. by left.
Qed.

(** X23. A playlist that has been removed is no longer found: when
    every record is stored under its [_id], a get-by-id request after
    the removal is answered with an undefined payload. *)
Theorem removed_is_not_found (id : string) (w : world) :
  keyed "_id" (db w) →
  id ≠ GLOBAL_FAVORITES_PLAYLIST_ID →
  ∃ w1 w2,
    handle PLAYLIST_REMOVE_BY_ID (VObj {[ "id" := VStr id ]}) w = Ok () w1 ∧
    handle PLAYLIST_GET_BY_ID (VObj {[ "id" := VStr id ]}) w1 = Ok () w2 ∧
    posted w2
      = posted w1
        ++ [Message PLAYLIST_PARSE_RESPONSE {[ "payload" := VUndefined ]}].
Proof.
  intros Hkeyed Hne.
  destruct (remove_by_id_runs guid_src clock toISOString parse http
              corsProxyUrl keyPath UPDATED (VObj {[ "id" := VStr id ]}) id w)
    as (w1 & Hrun & Hdb); [done|].
  exists w1. eexists. split; [done|].
  split; [by apply get_by_id_runs|]. cbn [posted].
  rewrite head_filter_none; [done|].
  intros r [k Hk]%stored_elem Hr. rewrite Hdb in Hk.
  apply lookup_delete_Some in Hk as [Hk Hstored].
  apply Hk. pose proof (keyed_field "_id" (db w) k r Hkeyed Hstored).
  congruence.
Qed.


(** X25. A successful refresh changes nothing that the aggregation
    reads: the entries under [playlist.items] and the favorites of the
    stored record are the ones it had, so the playlist contributes to
    the global favorites what it contributed before. *)
Theorem refresh_keeps_contribution (po cur : obj) (id body : string)
    (w : world) :
  http (corsProxyUrl +:+ to_string (field "url" po)) = HttpOk (VStr body) →
  field "id" po = VStr id →
  db w !! id = Some cur →
  field keyPath cur = VStr id →
  identity_field keyPath →
  ∃ record w',
    handle PLAYLIST_UPDATE (VObj po) w = Ok () w' ∧
    db w' !! id = Some record ∧
    entries record = entries cur ∧
    field "favorites" record = field "favorites" cur ∧
    ∀ acc, collectFavorites acc record = collectFavorites acc cur.
Proof.
  intros Hok Hid Hcur Hkey Hfield.
  destruct (refresh_runs guid_src clock toISOString parse http corsProxyUrl
              keyPath UPDATED po cur id body w)
    as (w' & Hrun & Hdb & _); try done.
  assert (∀ k, k = "favorites" ∨ k = "playlist" →
            field k (refreshedRecord UPDATED (VObj cur) (parse body)
                       (clock (ticks w))) = field k cur) as Hkept.
  { intros k Hk. unfold field. rewrite refreshedRecord_kept; [done|].
    destruct Hk as [-> | ->]; by apply not_written. }
  eexists _, w'. split; [done|].
  split; [rewrite Hdb; apply lookup_insert_eq|].
  split; [apply refresh_keeps_nested_playlist|].
  split; [apply Hkept; by left|].
  intros acc. unfold collectFavorites, pushFavorite.
  by rewrite !Hkept by auto.
Qed.

End more.

(** ** The further properties on sample data *)

Lemma fresh_by_check (w : world) (g : string) :
  forallb (λ r, negb (same_value_zero (field "_id" r) (VStr g))) (stored w)
    = true →
  ∀ r, r ∈ stored w → field "_id" r ≠ VStr g.
Proof.
  intros Hall%Forall_by_forallb r Hr Hg.
  apply (proj1 (Forall_forall _ _) Hall) in Hr.
  apply same_as_string in Hg. by rewrite Hg in Hr.
Qed.

Lemma sample_keys (l : list (string * obj)) (ids : list string) :
  l.*1 ≡ₚ ids →
  ∀ k, is_Some (db (Sample.world_of l) !! k) ↔ k ∈ ids.
Proof.
  intros Hperm k. cbn [db Sample.world_of].
  rewrite <- elem_of_dom, dom_list_to_map_L, elem_of_list_to_set.
  by rewrite Hperm.
Qed.

Lemma NoDup_by_check {A} `{EqDecision A} (l : list A) :
  bool_decide (NoDup l) = true → NoDup l.
Proof. apply bool_decide_eq_true_1. Qed.

Lemma global_favorites_request_witness :
  ∃ w',
    Sample.handle PLAYLIST_GET_BY_ID
      (VObj (Sample.by_id GLOBAL_FAVORITES_PLAYLIST_ID))
      (Sample.world_of [("p1", Sample.P1); ("p2", Sample.P2)]) = Ok () w' ∧
    posted w'
      = posted (Sample.world_of [("p1", Sample.P1); ("p2", Sample.P2)])
        ++ [Message PLAYLIST_PARSE_RESPONSE
              {[ "payload" :=
                   VObj (createFavoritesPlaylist
                           (stored (Sample.world_of
                                      [("p1", Sample.P1); ("p2", Sample.P2)])
                            ≫= selected)) ]}] ∧
    createFavoritesPlaylist
      (stored (Sample.world_of [("p1", Sample.P1); ("p2", Sample.P2)])
       ≫= selected) !! "_id"
      = Some (VStr GLOBAL_FAVORITES_PLAYLIST_ID) ∧
    db w' = db (Sample.world_of [("p1", Sample.P1); ("p2", Sample.P2)]) ∧
    requests w'
      = requests (Sample.world_of [("p1", Sample.P1); ("p2", Sample.P2)]).
Proof.
  apply (global_favorites_request Sample.guid_src Sample.clock
           Sample.toISOString Sample.parse Sample.http Sample.corsProxyUrl
           Sample.keyPath Sample.UPDATED
           (VObj (Sample.by_id GLOBAL_FAVORITES_PLAYLIST_ID))
           (Sample.world_of [("p1", Sample.P1); ("p2", Sample.P2)])).
  - vm_compute. reflexivity.
  - apply Forall_by_forallb. vm_compute. reflexivity.
Defined.

Lemma get_by_id_answer_witness :
  ∃ answer w',
    Sample.handle PLAYLIST_GET_BY_ID (VObj (Sample.by_id "p2"))
      (Sample.world_of [("p1", Sample.P1); ("p2", Sample.P2)]) = Ok () w' ∧
    posted w'
      = posted (Sample.world_of [("p1", Sample.P1); ("p2", Sample.P2)])
        ++ [Message PLAYLIST_PARSE_RESPONSE {[ "payload" := answer ]}] ∧
    db w' = db (Sample.world_of [("p1", Sample.P1); ("p2", Sample.P2)]) ∧
    ((∀ r, r ∈ stored (Sample.world_of
                         [("p1", Sample.P1); ("p2", Sample.P2)]) →
           field "_id" r ≠ VStr "p2") → answer = VUndefined) ∧
    (∀ r, r ∈ stored (Sample.world_of
                        [("p1", Sample.P1); ("p2", Sample.P2)]) →
          field "_id" r = VStr "p2" →
          (∀ r', r' ∈ stored (Sample.world_of
                                [("p1", Sample.P1); ("p2", Sample.P2)]) →
                 field "_id" r' = VStr "p2" → r' = r) →
          answer = VObj r).
Proof.
  apply (get_by_id_answer Sample.guid_src Sample.clock Sample.toISOString
           Sample.parse Sample.http Sample.corsProxyUrl Sample.keyPath
           Sample.UPDATED (VObj (Sample.by_id "p2")) "p2"
           (Sample.world_of [("p1", Sample.P1); ("p2", Sample.P2)])).
  - vm_compute. reflexivity.
  - done.
Defined.

Lemma remove_by_id_witness :
  ∃ w',
    Sample.handle PLAYLIST_REMOVE_BY_ID (VObj (Sample.by_id "p1"))
      (Sample.world_of [("p1", Sample.P1); ("p2", Sample.P2)]) = Ok () w' ∧
    db w'
      = delete "p1"
          (db (Sample.world_of [("p1", Sample.P1); ("p2", Sample.P2)])) ∧
    posted w'
      = posted (Sample.world_of [("p1", Sample.P1); ("p2", Sample.P2)])
        ++ [Message PLAYLIST_REMOVE_BY_ID_RESPONSE
              {[ "payload" := VArr (VObj <$> stored w') ]}] ∧
    db w' !! "p1" = None ∧
    (∀ k, k ≠ "p1" →
          db w' !! k
          = db (Sample.world_of [("p1", Sample.P1); ("p2", Sample.P2)])
              !! k) ∧
    (db (Sample.world_of [("p1", Sample.P1); ("p2", Sample.P2)]) !! "p1"
       = None →
     db w' = db (Sample.world_of [("p1", Sample.P1); ("p2", Sample.P2)])) ∧
    ∃ w'',
      Sample.handle PLAYLIST_REMOVE_BY_ID (VObj (Sample.by_id "p1")) w'
        = Ok () w'' ∧
      db w'' = db w'.
Proof.
  apply (remove_by_id Sample.guid_src Sample.clock Sample.toISOString
           Sample.parse Sample.http Sample.corsProxyUrl Sample.keyPath
           Sample.UPDATED (VObj (Sample.by_id "p1")) "p1"
           (Sample.world_of [("p1", Sample.P1); ("p2", Sample.P2)])).
  vm_compute. reflexivity.
Defined.

Lemma save_details_frame_witness :
  ∃ record w',
    Sample.handle PLAYLIST_SAVE_DETAILS (VObj (Sample.rename "p1" "Uno"))
      (Sample.world_of [("p1", Sample.P1); ("p2", Sample.P2)]) = Ok () w' ∧
    db w' !! "p1" = Some record ∧
    record !! "title" = Some (field "title" (Sample.rename "p1" "Uno")) ∧
    (∀ k, k ≠ "title" → record !! k = Sample.P1 !! k) ∧
    (∀ k, k ≠ "p1" →
          db w' !! k
          = db (Sample.world_of [("p1", Sample.P1); ("p2", Sample.P2)])
              !! k) ∧
    posted w'
      = posted (Sample.world_of [("p1", Sample.P1); ("p2", Sample.P2)])
        ++ [Message PLAYLIST_GET_ALL_RESPONSE
              {[ "payload" := VArr (VObj <$> stored w') ]}].
Proof.
  apply (save_details_frame Sample.guid_src Sample.clock Sample.toISOString
           Sample.parse Sample.http Sample.corsProxyUrl Sample.keyPath
           Sample.UPDATED (Sample.rename "p1" "Uno") Sample.P1 "p1"
           (Sample.world_of [("p1", Sample.P1); ("p2", Sample.P2)])).
  - vm_compute. reflexivity.
  - apply sample_here.
  - vm_compute. reflexivity.
  - right. reflexivity.
Defined.

Lemma import_file_witness :
  ∃ record w',
    Sample.handle PLAYLIST_PARSE (VObj Sample.upload)
      (Sample.world_of [("p1", Sample.P1)]) = Ok () w' ∧
    db w'
      = <[Sample.guid_src (guids (Sample.world_of [("p1", Sample.P1)]))
            := record]> (db (Sample.world_of [("p1", Sample.P1)])) ∧
    posted w'
      = posted (Sample.world_of [("p1", Sample.P1)])
        ++ [Message PLAYLIST_PARSE_RESPONSE {[ "payload" := VObj record ]}] ∧
    record !! "_id"
      = Some (VStr (Sample.guid_src
                      (guids (Sample.world_of [("p1", Sample.P1)])))) ∧
    record !! "title" = Some (field "title" Sample.upload) ∧
    record !! "filePath" = Some (field "path" Sample.upload) ∧
    record !! "url" = None ∧
    record !! "position" = None ∧
    length (entries record)
      = length (items (Sample.parse
                         (array_join newline [VStr "News"; VStr "Sport"]))).
Proof.
  apply (import_file Sample.guid_src Sample.clock Sample.toISOString
           Sample.parse Sample.http Sample.corsProxyUrl Sample.keyPath
           Sample.UPDATED Sample.upload [VStr "News"; VStr "Sport"]
           (Sample.world_of [("p1", Sample.P1)])).
  - vm_compute. reflexivity.
  - vm_compute. reflexivity.
  - right. reflexivity.
Defined.

Lemma imported_file_is_found_witness :
  ∃ record w1 w2,
    Sample.handle PLAYLIST_PARSE (VObj Sample.upload)
      (Sample.world_of [("p1", Sample.P1)]) = Ok () w1 ∧
    db w1 !! Sample.guid_src (guids (Sample.world_of [("p1", Sample.P1)]))
      = Some record ∧
    Sample.handle PLAYLIST_GET_BY_ID
      (VObj {[ "id" :=
                 VStr (Sample.guid_src
                         (guids (Sample.world_of [("p1", Sample.P1)]))) ]})
      w1 = Ok () w2 ∧
    posted w2
      = posted (Sample.world_of [("p1", Sample.P1)])
        ++ [Message PLAYLIST_PARSE_RESPONSE {[ "payload" := VObj record ]};
            Message PLAYLIST_PARSE_RESPONSE {[ "payload" := VObj record ]}] ∧
    db w2 = db w1.
Proof.
  apply (imported_file_is_found Sample.guid_src Sample.clock
           Sample.toISOString Sample.parse Sample.http Sample.corsProxyUrl
           Sample.keyPath Sample.UPDATED Sample.upload
           [VStr "News"; VStr "Sport"]
           (Sample.world_of [("p1", Sample.P1)])).
  - vm_compute. reflexivity.
  - vm_compute. reflexivity.
  - right. reflexivity.
  - intros Hg. vm_compute in Hg. discriminate Hg.
  - apply fresh_by_check. vm_compute. reflexivity.
Defined.

Lemma import_by_url_failure_witness :
  ∃ w',
    Sample.handle PLAYLIST_PARSE_BY_URL
      (VObj (Sample.refresh "p9" "http://tv/missing.m3u"))
      (Sample.world_of [("p1", Sample.P1)])
      = Fault (HttpErrorResponse (VObj {[ "status" := VNum 404 ]})) w' ∧
    posted w'
      = posted (Sample.world_of [("p1", Sample.P1)])
        ++ [Message ERROR
              (list_to_map [("message", VStr "something went wrong");
                            ("status", VNum 404)])] ∧
    requests w'
      = requests (Sample.world_of [("p1", Sample.P1)])
        ++ [Sample.corsProxyUrl
            +:+ to_string (VStr "http://tv/missing.m3u")] ∧
    db w' = db (Sample.world_of [("p1", Sample.P1)]).
Proof.
  apply (import_by_url_failure Sample.guid_src Sample.clock
           Sample.toISOString Sample.parse Sample.http Sample.corsProxyUrl
           Sample.keyPath Sample.UPDATED
           (VObj (Sample.refresh "p9" "http://tv/missing.m3u"))
           (VStr "http://tv/missing.m3u")
           (VObj {[ "status" := VNum 404 ]}) (VNum 404)
           (Sample.world_of [("p1", Sample.P1)])).
  - vm_compute. reflexivity.
  - vm_compute. reflexivity.
  - vm_compute. reflexivity.
Defined.

Lemma import_by_url_success_witness :
  ∃ w',
    Sample.handle_proxy PLAYLIST_PARSE_BY_URL
      (VObj (Sample.refresh "p2" "http://tv/two.m3u"))
      (Sample.world_of [("p1", Sample.P1)]) = Ok () w' ∧
    db w' = <["p2" := Sample.P2]> (db (Sample.world_of [("p1", Sample.P1)])) ∧
    posted w'
      = posted (Sample.world_of [("p1", Sample.P1)])
        ++ [Message PLAYLIST_PARSE_RESPONSE
              {[ "payload" := VObj Sample.P2 ]}] ∧
    requests w'
      = requests (Sample.world_of [("p1", Sample.P1)])
        ++ [Sample.corsProxyUrl +:+ to_string (VStr "http://tv/two.m3u")] ∧
    guids w' = guids (Sample.world_of [("p1", Sample.P1)]) ∧
    ticks w' = ticks (Sample.world_of [("p1", Sample.P1)]).
Proof.
  apply (import_by_url_success Sample.guid_src Sample.clock
           Sample.toISOString Sample.parse Sample.proxy Sample.corsProxyUrl
           Sample.keyPath Sample.UPDATED
           (VObj (Sample.refresh "p2" "http://tv/two.m3u"))
           (VStr "http://tv/two.m3u") Sample.P2 "p2"
           (Sample.world_of [("p1", Sample.P1)])).
  - vm_compute. reflexivity.
  - unfold Sample.proxy. by rewrite decide_True.
  - vm_compute. reflexivity.
  - vm_compute. reflexivity.
Defined.


Lemma reorder_then_get_all_witness :
  ∃ playlists w1 w2,
    Sample.handle PLAYLIST_UPDATE_POSITIONS
      (VArr (VObj <$> [Sample.P3; Sample.P1; Sample.P2]))
      (Sample.world_of
         [("p1", Sample.P1); ("p2", Sample.P2); ("p3", Sample.P3)])
      = Ok () w1 ∧
    Sample.handle PLAYLIST_GET_ALL VUndefined w1 = Ok () w2 ∧
    posted w2
      = posted (Sample.world_of
                  [("p1", Sample.P1); ("p2", Sample.P2); ("p3", Sample.P3)])
        ++ [Message PLAYLIST_GET_ALL_RESPONSE
              {[ "payload" := VArr (VObj <$> playlists) ]}] ∧
    field Sample.keyPath <$> playlists = VStr <$> ["p3"; "p1"; "p2"] ∧
    field "position" <$> playlists
      = (λ i, VNum (Z.of_nat i)) <$> seq 0 (length ["p3"; "p1"; "p2"]).
Proof.
  apply (reorder_then_get_all Sample.guid_src Sample.clock
           Sample.toISOString Sample.parse Sample.http Sample.corsProxyUrl
           Sample.keyPath Sample.UPDATED
           [Sample.P3; Sample.P1; Sample.P2] ["p3"; "p1"; "p2"] VUndefined
           (Sample.world_of
              [("p1", Sample.P1); ("p2", Sample.P2); ("p3", Sample.P3)])).
  - right. reflexivity.
  - apply sample_keyed. vm_compute. reflexivity.
  - vm_compute. reflexivity.
  - apply NoDup_by_check. vm_compute. reflexivity.
  - apply sample_keys. symmetry.
    apply (Permutation_cons_append ["p1"; "p2"] "p3").
Defined.


Lemma reorder_rejects_malformed_batch_witness :
  Sample.handle PLAYLIST_UPDATE_POSITIONS (VArr [VObj Sample.P1; VNull])
    (Sample.world_of [("p1", Sample.P1)])
  = Fault TypeError (Sample.world_of [("p1", Sample.P1)]).
Proof.
  apply (reorder_rejects_malformed_batch Sample.guid_src Sample.clock
           Sample.toISOString Sample.parse Sample.http Sample.corsProxyUrl
           Sample.keyPath Sample.UPDATED [VObj Sample.P1; VNull] VNull
           (Sample.world_of [("p1", Sample.P1)])).
  - right. left.
  - by right.
Defined.

Lemma favorites_update_without_favorites_witness :
  ∃ record w',
    Sample.handle PLAYLIST_UPDATE_FAVORITES (VObj (Sample.by_id "p1"))
      (Sample.world_of [("p1", Sample.P1); ("p2", Sample.P2)]) = Ok () w' ∧
    db w' !! "p1" = Some record ∧
    record !! "favorites" = Some VUndefined ∧
    getGlobalFavoritesCount w' = Fault TypeError w' ∧
    ∀ acc, collectFavorites acc record = Some acc.
Proof.
  apply (favorites_update_without_favorites Sample.guid_src Sample.clock
           Sample.toISOString Sample.parse Sample.http Sample.corsProxyUrl
           Sample.keyPath Sample.UPDATED (Sample.by_id "p1") Sample.P1 "p1"
           (Sample.world_of [("p1", Sample.P1); ("p2", Sample.P2)])).
  - vm_compute. reflexivity.
  - vm_compute. reflexivity.
  - apply sample_here.
  - vm_compute. reflexivity.
  - right. reflexivity.
Defined.

Lemma removed_is_not_found_witness :
  ∃ w1 w2,
    Sample.handle PLAYLIST_REMOVE_BY_ID (VObj {[ "id" := VStr "p1" ]})
      (Sample.world_of [("p1", Sample.P1); ("p2", Sample.P2)]) = Ok () w1 ∧
    Sample.handle PLAYLIST_GET_BY_ID (VObj {[ "id" := VStr "p1" ]}) w1
      = Ok () w2 ∧
    posted w2
      = posted w1
        ++ [Message PLAYLIST_PARSE_RESPONSE {[ "payload" := VUndefined ]}].
Proof.
  apply (removed_is_not_found Sample.guid_src Sample.clock
           Sample.toISOString Sample.parse Sample.http Sample.corsProxyUrl
           Sample.keyPath Sample.UPDATED "p1"
           (Sample.world_of [("p1", Sample.P1); ("p2", Sample.P2)])).
  - apply sample_keyed. vm_compute. reflexivity.
  - done.
Defined.


Lemma refresh_keeps_contribution_witness :
  ∃ record w',
    Sample.handle PLAYLIST_UPDATE
      (VObj (Sample.refresh "p1" "http://tv/list.m3u"))
      (Sample.world_of [("p1", Sample.P1)]) = Ok () w' ∧
    db w' !! "p1" = Some record ∧
    entries record = entries Sample.P1 ∧
    field "favorites" record = field "favorites" Sample.P1 ∧
    ∀ acc, collectFavorites acc record = collectFavorites acc Sample.P1.
Proof.
  apply (refresh_keeps_contribution Sample.guid_src Sample.clock
           Sample.toISOString Sample.parse Sample.http Sample.corsProxyUrl
           Sample.keyPath Sample.UPDATED
           (Sample.refresh "p1" "http://tv/list.m3u") Sample.P1 "p1"
           Sample.body (Sample.world_of [("p1", Sample.P1)])).
  - vm_compute. reflexivity.
  - vm_compute. reflexivity.
  - apply sample_here.
  - vm_compute. reflexivity.
  - right. reflexivity.
Defined.
